(** * cachefs: a read-only caching shim around an [fs.FS]

    Shallow embedding of the Go package [cachefs] (files [fs.go],
    [file.go], [quantize.go], [countingreader.go]) and the properties of
    its record codec, key quantizer and virtual directory entries. *)

From Stdlib Require Import ZArith List Bool Lia.
From Stdlib.Strings Require Import Ascii String Byte.
From Stdlib Require Import DecimalString DecimalPos DecimalZ.
From Stdlib Require Import SpecFloat.
From Stdlib Require Import Reals Lra.
Import ListNotations.

Local Open Scope Z_scope.

(** ** Errors

    The Go code returns [error] values; [nil] is [None]. *)

Inductive error : Type :=
| EOF                                   (* io.EOF *)
| ErrInvalid                            (* fs.ErrInvalid *)
| NotADirectory                         (* fmt.Errorf("not a directory: %w", fs.ErrInvalid) *)
| PathError (op path : string) (err : error)
| InvalidCacheKey (err : error)         (* fmt.Errorf("invalid cache key: %w", err) *)
| EscapeError (s : string)              (* url.EscapeError *)
| SemicolonError                        (* "invalid semicolon separator in query" *)
| UpstreamError (msg : string).         (* anything the wrapped fs.FS or gob reports *)

(** A Go call either returns or panics (index out of range, negative
    [make] length, integer division by zero). *)
Inductive outcome (A : Type) : Type :=
| Returns (a : A)
| Panics.
Arguments Returns {A} a.
Arguments Panics {A}.

(** ** Metadata ([file.go]) *)

(** [fs.FileMode] is a [uint32]; [fs.ModeDir] is its top bit. *)
Definition FileMode := Z.
Definition ModeDir : FileMode := Z.shiftl 1 31.
Definition ModeSymlink : FileMode := Z.shiftl 1 27.
Definition ModeNamedPipe : FileMode := Z.shiftl 1 25.
Definition ModeSocket : FileMode := Z.shiftl 1 24.
Definition ModeDevice : FileMode := Z.shiftl 1 26.
Definition ModeCharDevice : FileMode := Z.shiftl 1 21.
Definition ModeIrregular : FileMode := Z.shiftl 1 19.
Definition ModeType : FileMode :=
  Z.lor ModeDir (Z.lor ModeSymlink (Z.lor ModeNamedPipe
    (Z.lor ModeSocket (Z.lor ModeDevice (Z.lor ModeCharDevice ModeIrregular))))).

Definition FileMode_IsDir (m : FileMode) : bool := negb (Z.land m ModeDir =? 0).
Definition FileMode_Type (m : FileMode) : FileMode := Z.land m ModeType.

(** [time.Time] as carried through the record: seconds and nanoseconds
    counted from the zero [Time]. *)
Record Time : Type := mkTime { sec : Z; nsec : Z }.
Definition zeroTime : Time := mkTime 0 0.

Record fileInfo : Type := mkFileInfo {
  Nm : string;
  Sz : Z;
  Md : FileMode;
  Mt : Time
}.

Definition fileInfo_Name (fi : fileInfo) : string := Nm fi.
Definition fileInfo_Size (fi : fileInfo) : Z := Sz fi.
Definition fileInfo_Mode (fi : fileInfo) : FileMode := Md fi.
Definition fileInfo_ModTime (fi : fileInfo) : Time := Mt fi.
Definition fileInfo_IsDir (fi : fileInfo) : bool := FileMode_IsDir (Md fi).

(** [dirEntry] wraps a [fileInfo]; both Go structs call the field [FI]. *)
Record dirEntry : Type := mkDirEntry { dirEntry_FI : fileInfo }.

Definition dirEntry_IsDir (di : dirEntry) : bool := fileInfo_IsDir (dirEntry_FI di).
Definition dirEntry_Type (di : dirEntry) : FileMode :=
  FileMode_Type (fileInfo_Mode (dirEntry_FI di)).
Definition dirEntry_Info (di : dirEntry) : fileInfo * option error :=
  (dirEntry_FI di, None).
Definition dirEntry_Name (di : dirEntry) : string := fileInfo_Name (dirEntry_FI di).

(** ** Byte readers ([bytes.Reader] behind [groupcache.ByteView]) *)

Record bytesReader : Type := mkBytesReader { br_s : list byte; br_i : Z }.

Definition NewReader (b : list byte) : bytesReader := mkBytesReader b 0.

(** ** The cached file ([file.go]) *)

Record file : Type := mkFile {
  ReadSeeker : option bytesReader;   (* embedded io.ReadSeeker, nil until Open sets it *)
  FI : fileInfo;                     (* Metadata about the file *)
  pos : Z;                           (* Current position *)
  Dirs : list dirEntry               (* Directory entries *)
}.

Definition set_pos (f : file) (p : Z) : file :=
  mkFile (ReadSeeker f) (FI f) p (Dirs f).

Definition file_Stat (f : file) : fileInfo * option error := (FI f, None).
Definition file_Close (f : file) : option error := None.

Definition len {A : Type} (l : list A) : Z := Z.of_nat (List.length l).

(** The copy loop [for i := lo; i < hi; i++ { dest[i-lo] = src[i] }];
    indexing [src] out of range panics. *)
Fixpoint copyRange {A : Type} (src : list A) (i : nat) (k : nat) : outcome (list A) :=
  match k with
  | O => Returns []
  | S k' =>
      match nth_error src i with
      | None => Panics
      | Some x =>
          match copyRange src (S i) k' with
          | Returns dest => Returns (x :: dest)
          | Panics => Panics
          end
      end
  end.

(** [ReadDir] (method of [*file]): the new state of the file, the slice and the
    error returned. *)
Definition ReadDir (f : file) (n : Z) : outcome (file * (list dirEntry * option error)) :=
  if negb (fileInfo_IsDir (FI f)) then
    Returns (f, ([], Some (PathError "readdir" (fileInfo_Name (FI f)) NotADirectory)))
  else if n <=? 0 then
    match copyRange (Dirs f) 0 (List.length (Dirs f)) with
    | Returns dest => Returns (f, (dest, None))
    | Panics => Panics
    end
  else
    let max := len (Dirs f) - pos f in
    let max := if n <? max then n else max in
    if max =? 0 then Returns (f, ([], Some EOF))
    else if max <? 0 then Panics            (* make([]fs.DirEntry, max) *)
    else if pos f <? 0 then Panics          (* f.Dirs[i] with i < 0 *)
    else
      match copyRange (Dirs f) (Z.to_nat (pos f)) (Z.to_nat max) with
      | Returns dest => Returns (set_pos f (pos f + max), (dest, None))
      | Panics => Panics
      end.

(** A sequence of [ReadDir] calls on the same file. *)
Fixpoint ReadDirs (f : file) (ns : list Z) : outcome file :=
  match ns with
  | [] => Returns f
  | n :: ns' =>
      match ReadDir f n with
      | Returns (f', _) => ReadDirs f' ns'
      | Panics => Panics
      end
  end.

(** The paging loop of a caller ([TestReadDirLoop]): call [ReadDir n]
    until it reports [io.EOF], collecting the batches.  The result is the
    batches returned without error, the slice that came with the
    terminating error, and the final file; [None] when the fuel ran out
    before an error was seen. *)
Fixpoint readDirLoop (fuel : nat) (f : file) (n : Z)
  : option (outcome (list (list dirEntry) * (list dirEntry * error) * file)) :=
  match fuel with
  | O => None
  | S fuel' =>
      match ReadDir f n with
      | Panics => Some Panics
      | Returns (f', (dirs, Some err)) => Some (Returns ([], (dirs, err), f'))
      | Returns (f', (dirs, None)) =>
          match readDirLoop fuel' f' n with
          | Some (Returns (batches, last, f'')) => Some (Returns (dirs :: batches, last, f''))
          | other => other
          end
      end
  end.

(** A directory with three children, used to exercise [ReadDir]. *)
Definition child (name : string) : dirEntry :=
  mkDirEntry (mkFileInfo name 0 0 zeroTime).

Definition sampleDir : file :=
  mkFile None (mkFileInfo "." 0 ModeDir zeroTime) 0 [child "a"; child "b"; child "c"].

(** ** Reading through interfaces ([io.Reader], [io.ByteReader]) *)

Inductive result (A : Type) : Type :=
| Ok (a : A)
| Err (e : error).
Arguments Ok {A} a.
Arguments Err {A} e.

(** [Read buf] fills a prefix of [buf] and returns the updated buffer,
    the number of bytes read and the error. *)
Class io_Reader (R : Type) : Type :=
  { Read : R -> list byte -> R * (list byte * Z * option error) }.

Class io_ByteReader (R : Type) : Type :=
  { ReadByte : R -> R * (byte * option error) }.

(** Go's builtin [copy(dst, src)]. *)
Definition copy (dst src : list byte) : list byte * Z :=
  let n := Nat.min (List.length dst) (List.length src) in
  (firstn n src ++ skipn n dst, Z.of_nat n).

(** [bytes.Reader.Read] and [bytes.Reader.ReadByte]. *)
Definition bytesReader_Read (r : bytesReader) (b : list byte)
  : bytesReader * (list byte * Z * option error) :=
  if len (br_s r) <=? br_i r then (r, (b, 0, Some EOF))
  else
    let '(b', n) := copy b (skipn (Z.to_nat (br_i r)) (br_s r)) in
    (mkBytesReader (br_s r) (br_i r + n), (b', n, None)).

Definition bytesReader_ReadByte (r : bytesReader) : bytesReader * (byte * option error) :=
  if len (br_s r) <=? br_i r then (r, (x00, Some EOF))
  else (mkBytesReader (br_s r) (br_i r + 1),
        (nth (Z.to_nat (br_i r)) (br_s r) x00, None)).

#[export] Instance bytesReader_io_Reader : io_Reader bytesReader :=
  {| Read := bytesReader_Read |}.
#[export] Instance bytesReader_io_ByteReader : io_ByteReader bytesReader :=
  {| ReadByte := bytesReader_ReadByte |}.

(** [groupcache.ByteView]: an immutable view of bytes. *)
Definition ByteView := list byte.

Definition ByteView_Reader (v : ByteView) : bytesReader := NewReader v.

(** [v.SliceFrom(from)] is [v[from:]]; slicing out of range panics. *)
Definition SliceFrom (v : ByteView) (from : Z) : outcome ByteView :=
  if (from <? 0) || (len v <? from) then Panics
  else Returns (skipn (Z.to_nat from) v).

(** ** [countingReader] ([countingreader.go]) *)

Record countingReader (R : Type) : Type := mkCountingReader {
  Reader : R;
  count : Z
}.
Arguments mkCountingReader {R} _ _.
Arguments Reader {R} _.
Arguments count {R} _.

Definition countingReader_Read {R : Type} `{io_Reader R}
  (c : countingReader R) (buf : list byte)
  : countingReader R * (list byte * Z * option error) :=
  let '(r', (buf', n, err)) := Read (Reader c) buf in
  (mkCountingReader r' (count c + n), (buf', n, err)).

Definition countingReader_ReadByte {R : Type} `{io_Reader R}
  (c : countingReader R) : countingReader R * (byte * option error) :=
  let buf := [x00] in
  let '(c', (buf', _, err)) := countingReader_Read c buf in
  (c', (nth 0 buf' x00, err)).

Definition Count {R : Type} (c : countingReader R) : Z := count c.

#[export] Instance countingReader_io_Reader {R : Type} `{io_Reader R}
  : io_Reader (countingReader R) := {| Read := countingReader_Read |}.
#[export] Instance countingReader_io_ByteReader {R : Type} `{io_Reader R}
  : io_ByteReader (countingReader R) := {| ReadByte := countingReader_ReadByte |}.

(** ** The structured decoder as a client of a reader

    [encoding/gob] is a library outside this package.  Whatever it does,
    its decoder can only learn about the input by calling [Read] and
    [ReadByte] on the reader it was given; a decoder is therefore a tree
    of such calls ending in a decoded value or a decode error. *)
Inductive decoder (A : Type) : Type :=
| Decoded (a : A)
| DecodeError (e : error)
| CallRead (buf : list byte) (k : list byte -> Z -> option error -> decoder A)
| CallReadByte (k : byte -> option error -> decoder A).
Arguments Decoded {A} a.
Arguments DecodeError {A} e.
Arguments CallRead {A} buf k.
Arguments CallReadByte {A} k.

Fixpoint runDecoder {R A : Type} `{io_Reader R} `{io_ByteReader R}
  (d : decoder A) (r : R) : R * result A :=
  match d with
  | Decoded a => (r, Ok a)
  | DecodeError e => (r, Err e)
  | CallRead buf k =>
      let '(r', (buf', n, err)) := Read r buf in
      runDecoder (k buf' n err) r'
  | CallReadByte k =>
      let '(r', (b, err)) := ReadByte r in
      runDecoder (k b err) r'
  end.

(** The exported fields of [file] that travel in the gob header. *)
Definition header : Type := fileInfo * list dirEntry.

Record gobCodec : Type := mkGobCodec {
  gobEncode : file -> result (list byte);    (* gob.NewEncoder(&buf).Encode(resultFile) *)
  gobDecode : decoder header                 (* gob.NewDecoder(&rdr).Decode(&f) *)
}.

(** ** Record codec ([fs.go]) *)

(** The encode path of the getter: the gob header, then the raw data. *)
Definition encodeRecord (g : gobCodec) (resultFile : file) (data : list byte)
  : result (list byte) :=
  match gobEncode g resultFile with
  | Err err => Err err
  | Ok buf => Ok (buf ++ data)              (* buf.Write(data) *)
  end.

(** The decode path of [Open]: the decoded file together with the
    offset the counting reader reported. *)
Definition decodeRecord (g : gobCodec) (name : string) (buf : ByteView)
  : outcome (result (file * Z)) :=
  let rdr := mkCountingReader (ByteView_Reader buf) 0 in
  let '(rdr', res) := runDecoder (gobDecode g) rdr in
  match res with
  | Err err => Returns (Err (PathError "open" name err))
  | Ok (fi, dirs) =>
      (* rest of the slice is the file data *)
      match SliceFrom buf (Count rdr') with
      | Panics => Panics
      | Returns rest =>
          Returns (Ok (mkFile (Some (ByteView_Reader rest)) fi 0 dirs, Count rdr'))
      end
  end.

(** The bytes still to be read from a [bytes.Reader]. *)
Definition unread (r : bytesReader) : list byte := skipn (Z.to_nat (br_i r)) (br_s r).

(** The content view of an opened file. *)
Definition content (f : file) : list byte :=
  match ReadSeeker f with
  | Some r => unread r
  | None => []
  end.

(** ** Loader ([fs.go], the getter passed to [groupcache.NewGroup]) *)

(** What the wrapped [fs.FS] hands out. *)
Record FileInfo : Type := mkFSInfo {    (* fs.FileInfo *)
  info_Name : string;
  info_Size : Z;
  info_Mode : FileMode;
  info_ModTime : Time;
  info_IsDir : bool
}.

Record DirEntry : Type := mkFSDirEntry {    (* fs.DirEntry *)
  entry_Name : string;
  entry_Type : FileMode;
  entry_Info : result FileInfo
}.

Record File : Type := mkFSFile {    (* fs.File *)
  File_Stat : result FileInfo;
  File_ReadDir : option (list DirEntry * option error);  (* None: not an fs.ReadDirFile *)
  File_ReadAll : list byte * option error                (* io.ReadAll(f) *)
}.

Definition FS : Type := string -> result File.

(** The body of the loop [for _, entry := range entries]. *)
Definition appendEntry (noStat : bool) (dirs : list dirEntry) (entry : DirEntry)
  : list dirEntry :=
  if negb noStat then
    match entry_Info entry with
    | Err _ => dirs            (* Pretend it does not exist, like os.File.Readdir does. *)
    | Ok fi =>
        dirs ++ [mkDirEntry (mkFileInfo (info_Name fi) (info_Size fi)
                                        (info_Mode fi) (info_ModTime fi))]
    end
  else
    dirs ++ [mkDirEntry (mkFileInfo (entry_Name entry) 0 (entry_Type entry) zeroTime)].

Definition listDirs (noStat : bool) (entries : list DirEntry) : list dirEntry :=
  fold_left (appendEntry noStat) entries [].

(** The getter from the point where the path is known. *)
Definition load (g : gobCodec) (innerFS : FS) (noStat : bool) (path : string)
  : outcome (result (list byte)) :=
  match innerFS path with
  | Err err => Returns (Err err)
  | Ok f =>
      match File_Stat f with
      | Err err => Returns (Err err)
      | Ok info =>
          let resultFI := mkFileInfo (info_Name info) (info_Size info)
                                     (info_Mode info) (info_ModTime info) in
          if info_IsDir info then
            match File_ReadDir f with
            | None => Panics                         (* f.(fs.ReadDirFile) *)
            | Some (_, Some err) => Returns (Err err)
            | Some (entries, None) =>
                Returns (encodeRecord g (mkFile None resultFI 0 (listDirs noStat entries)) [])
            end
          else
            match File_ReadAll f with
            | (_, Some err) => Returns (Err err)
            | (data, None) => Returns (encodeRecord g (mkFile None resultFI 0 []) data)
            end
      end
  end.

(** The children a listing is expected to keep when per-child metadata
    is collected: those whose [Info()] succeeded, in enumeration order. *)
Definition childSummaries (entries : list DirEntry) : list dirEntry :=
  flat_map (fun entry =>
              match entry_Info entry with
              | Ok fi => [mkDirEntry (mkFileInfo (info_Name fi) (info_Size fi)
                                                 (info_Mode fi) (info_ModTime fi))]
              | Err _ => []
              end) entries.

(** ** A small self-delimiting header codec

    Used to run the codec on concrete records.  A metadata record is
    written as name length, size, directory flag (one byte each) and the
    name; the header is the file's record, the number of children and the
    children's records. *)
Definition tinyByte (z : Z) : option byte :=
  if (0 <=? z) && (z <? 256) then Byte.of_N (Z.to_N z) else None.

Definition tinyInfo (fi : fileInfo) : option (list byte) :=
  let name := list_byte_of_string (Nm fi) in
  match tinyByte (len name), tinyByte (Sz fi) with
  | Some l, Some sz =>
      Some (l :: sz :: (if FileMode_IsDir (Md fi) then x01 else x00) :: name)
  | _, _ => None
  end.

Fixpoint tinyInfos (dirs : list dirEntry) : option (list byte) :=
  match dirs with
  | [] => Some []
  | di :: dirs' =>
      match tinyInfo (dirEntry_FI di), tinyInfos dirs' with
      | Some a, Some b => Some (a ++ b)
      | _, _ => None
      end
  end.

Definition tinyEncode (f : file) : result (list byte) :=
  match tinyInfo (FI f), tinyByte (len (Dirs f)), tinyInfos (Dirs f) with
  | Some a, Some n, Some b => Ok (a ++ n :: b)
  | _, _, _ => Err (UpstreamError "tiny: value out of range")
  end.

Definition tinyReadByte (k : byte -> decoder header) : decoder header :=
  CallReadByte (fun b err =>
    match err with
    | Some e => DecodeError e
    | None => k b
    end).

Definition tinyReadInfo (k : fileInfo -> decoder header) : decoder header :=
  tinyReadByte (fun l =>
  tinyReadByte (fun sz =>
  tinyReadByte (fun dir =>
    CallRead (repeat x00 (N.to_nat (Byte.to_N l))) (fun buf n _ =>
      if n =? len buf then
        k (mkFileInfo (string_of_list_byte buf) (Z.of_N (Byte.to_N sz))
                      (if Byte.eqb dir x00 then 0 else ModeDir) zeroTime)
      else DecodeError EOF)))).

Fixpoint tinyReadInfos (n : nat) (k : list dirEntry -> decoder header) : decoder header :=
  match n with
  | O => k []
  | S n' =>
      tinyReadInfo (fun fi => tinyReadInfos n' (fun rest => k (mkDirEntry fi :: rest)))
  end.

Definition tinyDecode : decoder header :=
  tinyReadInfo (fun fi =>
  tinyReadByte (fun n =>
    tinyReadInfos (N.to_nat (Byte.to_N n)) (fun dirs => Decoded (fi, dirs)))).

Definition tinyCodec : gobCodec := mkGobCodec tinyEncode tinyDecode.

(** Concrete records for the tiny codec: the file ["a.txt"] holding
    ["hi"], and a five-byte tail that disagrees with its size. *)
Definition sampleInfo : fileInfo := mkFileInfo "a.txt" 2 0 zeroTime.
Definition sampleData : list byte := [x68; x69].
Definition sampleHeader : list byte := [x05; x02; x00; x61; x2e; x74; x78; x74; x00].
Definition longTail : list byte := [x68; x65; x6c; x6c; x6f].

(** The header of [sampleDir]. *)
Definition sampleDirHeader : list byte :=
  [x01; x00; x01; x2e; x03;
   x01; x00; x00; x61; x01; x00; x00; x62; x01; x00; x00; x63].

(** A wrapped file system with one directory whose middle child cannot
    be stat'ed. *)
Definition okEntry (name : string) : DirEntry :=
  mkFSDirEntry name 0 (Ok (mkFSInfo name 7 0 zeroTime false)).
Definition goneEntry (name : string) : DirEntry :=
  mkFSDirEntry name 0 (Err (UpstreamError "no such file")).

Definition sampleEntries : list DirEntry := [okEntry "a"; goneEntry "b"; okEntry "c"].

Definition sampleRoot : File :=
  mkFSFile (Ok (mkFSInfo "." 0 ModeDir zeroTime true))
           (Some (sampleEntries, None))
           ([], Some (UpstreamError "is a directory")).

Definition sampleFS : FS :=
  fun path => if String.eqb path "." then Ok sampleRoot
              else Err (UpstreamError "file does not exist").

(** ** Cache keys ([net/url] as used by [Open] and the getter) *)

Definition code (c : ascii) : Z := Z.of_N (N_of_ascii c).
Definition chr (z : Z) : ascii := ascii_of_N (Z.to_N z).

Definition between (lo hi c : ascii) : bool :=
  (code lo <=? code c) && (code c <=? code hi).

Definition upperhex : string := "0123456789ABCDEF".

Definition hexdigit (z : Z) : ascii :=
  match String.get (Z.to_nat z) upperhex with
  | Some c => c
  | None => "0"%char
  end.

Definition ishex (c : ascii) : bool :=
  between "0" "9" c || between "a" "f" c || between "A" "F" c.

Definition unhex (c : ascii) : Z :=
  if between "0" "9" c then code c - code "0"
  else if between "a" "f" c then code c - code "a" + 10
  else if between "A" "F" c then code c - code "A" + 10
  else 0.

(** [shouldEscape(c, encodeQueryComponent)]. *)
Definition shouldEscape (c : ascii) : bool :=
  if between "a" "z" c || between "A" "Z" c || between "0" "9" c then false
  else
    match c with
    | "-" | "_" | "." | "~" => false
    | "$" | "&" | "+" | "," | "/" | ":" | ";" | "=" | "?" | "@" => true
    | _ => true
    end%char.

(** [escape(s, encodeQueryComponent)]: count, return [s] itself when
    nothing needs escaping, otherwise rewrite. *)
Fixpoint escapeCount (s : string) : Z * Z :=
  match s with
  | EmptyString => (0, 0)
  | String c s' =>
      let '(spaceCount, hexCount) := escapeCount s' in
      if shouldEscape c then
        if Ascii.eqb c " " then (spaceCount + 1, hexCount)
        else (spaceCount, hexCount + 1)
      else (spaceCount, hexCount)
  end.

Fixpoint escapeWrite (s : string) : string :=
  match s with
  | EmptyString => EmptyString
  | String c s' =>
      if shouldEscape c then
        if Ascii.eqb c " " then String "+" (escapeWrite s')
        else String "%" (String (hexdigit (Z.shiftr (code c) 4))
                           (String (hexdigit (Z.land (code c) 15)) (escapeWrite s')))
      else String c (escapeWrite s')
  end.

Definition QueryEscape (s : string) : string :=
  let '(spaceCount, hexCount) := escapeCount s in
  if (spaceCount =? 0) && (hexCount =? 0) then s else escapeWrite s.

(** [unescape(s, encodeQueryComponent)]: a checking pass that counts the
    [%] and notes a [+], then the rewriting pass. *)
Fixpoint unescapeCheck (s : string) : result (Z * bool) :=
  match s with
  | EmptyString => Ok (0, false)
  | String c rest =>
      if Ascii.eqb c "%" then
        match rest with
        | String a (String b rest') =>
            if ishex a && ishex b then
              match unescapeCheck rest' with
              | Ok (n, hasPlus) => Ok (n + 1, hasPlus)
              | Err e => Err e
              end
            else Err (EscapeError (String.substring 0 3 s))
        | _ => Err (EscapeError (String.substring 0 3 s))
        end
      else
        match unescapeCheck rest with
        | Ok (n, hasPlus) => Ok (n, if Ascii.eqb c "+" then true else hasPlus)
        | Err e => Err e
        end
  end.

Fixpoint unescapeWrite (s : string) : string :=
  match s with
  | EmptyString => EmptyString
  | String c rest =>
      if Ascii.eqb c "%" then
        match rest with
        | String a (String b rest') =>
            String (chr (Z.lor (Z.shiftl (unhex a) 4) (unhex b))) (unescapeWrite rest')
        | _ => String c (unescapeWrite rest)
        end
      else if Ascii.eqb c "+" then String " " (unescapeWrite rest)
      else String c (unescapeWrite rest)
  end.

Definition QueryUnescape (s : string) : result string :=
  match unescapeCheck s with
  | Err e => Err e
  | Ok (n, hasPlus) =>
      if (n =? 0) && negb hasPlus then Ok s else Ok (unescapeWrite s)
  end.

(** [url.Values]: a Go map from keys to value lists.  Keys are kept
    unique; [Encode] visits them in sorted order. *)
Definition Values : Type := list (string * list string).

Fixpoint Values_lookup (v : Values) (key : string) : option (list string) :=
  match v with
  | [] => None
  | (k, vs) :: v' => if String.eqb k key then Some vs else Values_lookup v' key
  end.

(** [v.Get(key)]: the first value, or the empty string. *)
Definition Values_Get (v : Values) (key : string) : string :=
  match Values_lookup v key with
  | Some (value :: _) => value
  | _ => EmptyString
  end.

(** [m[key] = vs]. *)
Fixpoint Values_store (v : Values) (key : string) (vs : list string) : Values :=
  match v with
  | [] => [(key, vs)]
  | (k, old) :: v' =>
      if String.eqb k key then (k, vs) :: v' else (k, old) :: Values_store v' key vs
  end.

Definition Values_Set (v : Values) (key value : string) : Values :=
  Values_store v key [value].

(** [m[key] = append(m[key], value)]. *)
Definition Values_append (v : Values) (key value : string) : Values :=
  match Values_lookup v key with
  | Some vs => Values_store v key (vs ++ [value])
  | None => Values_store v key [value]
  end.

(** [sort.Strings]: byte-wise lexicographic order. *)
Fixpoint insertSorted (k : string) (ks : list string) : list string :=
  match ks with
  | [] => [k]
  | k' :: ks' => if String.leb k k' then k :: ks else k' :: insertSorted k ks'
  end.

Definition sortStrings (ks : list string) : list string :=
  fold_right insertSorted [] ks.

(** The inner loop of [Encode] for one key. *)
Fixpoint encodeValues (buf keyEscaped : string) (vs : list string) : string :=
  match vs with
  | [] => buf
  | v :: vs' =>
      let buf := if (String.length buf =? 0)%nat then buf else (buf ++ "&")%string in
      encodeValues (buf ++ keyEscaped ++ "=" ++ QueryEscape v)%string keyEscaped vs'
  end.

Definition Values_Encode (v : Values) : string :=
  fold_left (fun buf k =>
               match Values_lookup v k with
               | Some vs => encodeValues buf (QueryEscape k) vs
               | None => buf
               end)
            (sortStrings (map fst v)) EmptyString.

(** [strings.Cut(s, sep)] for a one-byte separator. *)
Fixpoint Cut (s : string) (sep : ascii) : string * string * bool :=
  match s with
  | EmptyString => (EmptyString, EmptyString, false)
  | String c rest =>
      if Ascii.eqb c sep then (EmptyString, rest, true)
      else let '(before, after, found) := Cut rest sep in (String c before, after, found)
  end.

Fixpoint Contains (s : string) (c : ascii) : bool :=
  match s with
  | EmptyString => false
  | String c' rest => Ascii.eqb c' c || Contains rest c
  end.

Definition firstError (err : option error) (err1 : error) : option error :=
  match err with
  | None => Some err1
  | Some _ => err
  end.

(** [parseQuery]: the loop [for query != ""]; each round removes at
    least one byte from [query], so [String.length query] rounds are
    enough. *)
Fixpoint parseQuery (fuel : nat) (m : Values) (query : string) (err : option error)
  : Values * option error :=
  match fuel with
  | O => (m, err)
  | S fuel' =>
      if (String.length query =? 0)%nat then (m, err)
      else
        let '(key, query, _) := Cut query "&" in
        if Contains key ";" then parseQuery fuel' m query (Some SemicolonError)
        else if (String.length key =? 0)%nat then parseQuery fuel' m query err
        else
          let '(key, value, _) := Cut key "=" in
          match QueryUnescape key with
          | Err err1 => parseQuery fuel' m query (firstError err err1)
          | Ok key =>
              match QueryUnescape value with
              | Err err1 => parseQuery fuel' m query (firstError err err1)
              | Ok value => parseQuery fuel' (Values_append m key value) query err
              end
          end
  end.

Definition ParseQuery (query : string) : Values * option error :=
  parseQuery (String.length query) [] query None.

(** [strconv.FormatInt(t, 10)]. *)
Definition FormatInt (t : Z) : string :=
  DecimalString.NilZero.string_of_int (Z.to_int t).

(** ** Key quantizer ([quantize.go]) *)

(** [int64] arithmetic wraps around. *)
Definition min_int64 : Z := - 2 ^ 63.
Definition max_int64 : Z := 2 ^ 63 - 1.
Definition wrap64 (z : Z) : Z := (z + 2 ^ 63) mod 2 ^ 64 - 2 ^ 63.

(** Integer division truncates toward zero and panics on a zero
    divisor; [min_int64 / -1] wraps. *)
Definition int64_div (a b : Z) : outcome Z :=
  if b =? 0 then Panics else Returns (wrap64 (Z.quot a b)).

(** [hash/adler32]: the checksum of RFC 1950, two sums modulo 65521
    packed into a [uint32]. *)
Definition adler32_mod : Z := 65521.

Definition adler32_step (ab : Z * Z) (x : byte) : Z * Z :=
  let '(a, b) := ab in
  let a := (a + Z.of_N (Byte.to_N x)) mod adler32_mod in
  (a, (b + a) mod adler32_mod).

Definition adler32_Checksum (p : list byte) : Z :=
  let '(a, b) := fold_left adler32_step p (1, 0) in
  Z.lor (Z.shiftl b 16) a.

(** [float64]: IEEE 754 binary64 with round-to-nearest-even, as
    specified by [SpecFloat]. *)
Definition float64 : Type := spec_float.
Definition prec : Z := 53.
Definition emax : Z := 1024.

(** The conversion [float64(x)] of an integer. *)
Definition float64_of_int (x : Z) : float64 := binary_normalize prec emax x 0 false.
Definition float64_mul (x y : float64) : float64 := SFmul prec emax x y.
Definition float64_div (x y : float64) : float64 := SFdiv prec emax x y.

(** The conversion [int64(x)] of a float: the fraction is discarded.
    For a value outside [int64], and for NaN, Go leaves the result to the
    implementation; amd64 and arm64 differ, here it is [min_int64] as on
    amd64. *)
Definition int64_of_float64 (x : float64) : Z :=
  match x with
  | S754_zero _ => 0
  | S754_finite s m e =>
      let a := if 0 <=? e then Zpos m * 2 ^ e else Zpos m / 2 ^ (- e) in
      let v := cond_Zopp s a in
      if (min_int64 <=? v) && (v <=? max_int64) then v else min_int64
  | S754_infinity _ | S754_nan => min_int64
  end.

(** [quantizeOffset]: the expression
    [time.Duration(float64(sum) * float64(d) / float64(2<<31) / 4.0)],
    which [quantize] repeats inline. *)
Definition quantizeOffset (sum : Z) (d : Z) : Z :=
  int64_of_float64
    (float64_div
       (float64_div (float64_mul (float64_of_int sum) (float64_of_int d))
                    (float64_of_int (Z.shiftl 2 31)))
       (float64_of_int 4)).

(** The divisor of [quantize]:
    [int64(d.Nanoseconds()+offset.Nanoseconds())]. *)
Definition effectivePeriod (d : Z) (s : string) : Z :=
  let sum := adler32_Checksum (list_byte_of_string s) in
  let offset := quantizeOffset sum d in
  wrap64 (d + offset).

(** [quantize(t, d, s)], with [t] given as [t.UnixNano()]. *)
Definition quantize (t : Z) (d : Z) (s : string) : outcome Z :=
  if d =? 0 then Returns 0
  else int64_div t (effectivePeriod d s).

(** The real number denoted by a mantissa and a binary exponent, and
    the unit roundoff of binary64. *)
Definition F2R (m e : Z) : R := (IZR m * powerRZ 2 e)%R.
Definition u53 : R := (/ 9007199254740992)%R.

(** The key [Open] asks the cache for. *)
Definition cacheKey (t : Z) (name : string) : string :=
  let q : Values := [] in
  let q := Values_Set q "t" (FormatInt t) in
  let q := Values_Set q "path" name in
  Values_Encode q.

(** The getter: recover the path from the key, then load it. *)
Definition getter (g : gobCodec) (innerFS : FS) (noStat : bool) (key : string)
  : outcome (result (list byte)) :=
  (* Parse query which contains quantize info and path *)
  match ParseQuery key with
  | (_, Some err) => Returns (Err (InvalidCacheKey err))
  | (q, None) => load g innerFS noStat (Values_Get q "path")
  end.

(** ** The facade ([fs.go])

    [cacheFS] keeps the configured duration and the groupcache group;
    the group is seen through its [Get], which either yields the cached
    bytes for a key (running the getter on a miss) or fails.
    [fs.ValidPath] and the clock are supplied by the caller. *)
Record cacheFS : Type := mkCacheFS {
  duration : Z;
  cache_Get : string -> outcome (result ByteView)
}.

Definition Open (g : gobCodec) (ValidPath : string -> bool) (now : Z)
           (cfs : cacheFS) (name : string) : outcome (result file) :=
  if negb (ValidPath name) then Returns (Err (PathError "open" name ErrInvalid))
  else
    match quantize now (duration cfs) name with
    | Panics => Panics
    | Returns t =>
        match cache_Get cfs (cacheKey t name) with
        | Panics => Panics
        | Returns (Err err) => Returns (Err (PathError "open" name err))
        | Returns (Ok buf) =>
            match decodeRecord g name buf with
            | Panics => Panics
            | Returns (Err err) => Returns (Err err)
            | Returns (Ok (f, _)) => Returns (Ok f)
            end
        end
    end.

(** ** Reading and seeking the content

    [file] embeds the [io.ReadSeeker] that [Open] builds from the rest
    of the cache value, so [f.Read] and [f.Seek] are the methods of that
    [bytes.Reader]; on a file whose reader is still nil they panic. *)
Definition SeekStart : Z := 0.
Definition SeekCurrent : Z := 1.
Definition SeekEnd : Z := 2.

Definition bytesReader_Seek (r : bytesReader) (offset whence : Z)
  : bytesReader * (Z * option error) :=
  let abs :=
    if whence =? SeekStart then Some offset
    else if whence =? SeekCurrent then Some (wrap64 (br_i r + offset))
    else if whence =? SeekEnd then Some (wrap64 (len (br_s r) + offset))
    else None in
  match abs with
  | None => (r, (0, Some (UpstreamError "bytes.Reader.Seek: invalid whence")))
  | Some abs =>
      if abs <? 0 then
        (r, (0, Some (UpstreamError "bytes.Reader.Seek: negative position")))
      else (mkBytesReader (br_s r) abs, (abs, None))
  end.

Definition set_ReadSeeker (f : file) (r : bytesReader) : file :=
  mkFile (Some r) (FI f) (pos f) (Dirs f).

Definition file_Read (f : file) (b : list byte)
  : outcome (file * (list byte * Z * option error)) :=
  match ReadSeeker f with
  | None => Panics
  | Some r => let '(r', res) := bytesReader_Read r b in Returns (set_ReadSeeker f r', res)
  end.

Definition file_Seek (f : file) (offset whence : Z)
  : outcome (file * (Z * option error)) :=
  match ReadSeeker f with
  | None => Panics
  | Some r =>
      let '(r', res) := bytesReader_Seek r offset whence in
      Returns (set_ReadSeeker f r', res)
  end.

(** A caller reading the content through a buffer of [n] bytes until
    [Read] reports an error: the bytes collected, the error and the final
    file; [None] when the fuel ran out first. *)
Fixpoint readLoop (fuel : nat) (f : file) (n : nat)
  : option (outcome (list byte * error * file)) :=
  match fuel with
  | O => None
  | S fuel' =>
      match file_Read f (repeat x00 n) with
      | Panics => Some Panics
      | Returns (f', (b, k, Some err)) => Some (Returns (firstn (Z.to_nat k) b, err, f'))
      | Returns (f', (b, k, None)) =>
          match readLoop fuel' f' n with
          | Some (Returns (rest, err, f'')) =>
              Some (Returns (firstn (Z.to_nat k) b ++ rest, err, f''))
          | other => other
          end
      end
  end.

(** The children recorded when per-child metadata is not collected:
    name and type bits of every entry. *)
Definition typeSummaries (entries : list DirEntry) : list dirEntry :=
  map (fun entry => mkDirEntry (mkFileInfo (entry_Name entry) 0 (entry_Type entry) zeroTime))
      entries.

(** The metadata copied from the wrapped file's [Stat]. *)
Definition statInfo (info : FileInfo) : fileInfo :=
  mkFileInfo (info_Name info) (info_Size info) (info_Mode info) (info_ModTime info).

(** A wrapped file system with a directory and a regular file. *)
Definition exampleFile : File :=
  mkFSFile (Ok (mkFSInfo "a.txt" 2 0 zeroTime false)) None (sampleData, None).

Definition exampleFS : FS :=
  fun path => if String.eqb path "." then Ok sampleRoot
              else if String.eqb path "a.txt" then Ok exampleFile
              else Err (UpstreamError "file does not exist").

Definition alwaysValid (name : string) : bool := true.

(** ** The variant on [mailgun/groupcache] ([src/fs.go])

    The key is the path itself and the sink also receives an expiry,
    [time.Now().Add(config.Duration)], kept here as the two operands. *)
Module mailgun.

Definition getter (g : gobCodec) (innerFS : FS) (noStat : bool) (now d : Z)
           (key : string) : outcome (result (list byte * (Z * Z))) :=
  match load g innerFS noStat key with
  | Panics => Panics
  | Returns (Err err) => Returns (Err err)
  | Returns (Ok buf) => Returns (Ok (buf, (now, d)))    (* dest.SetBytes(buf.Bytes(), ...) *)
  end.

(** What [cache.Get] hands to the sink when the key is not cached. *)
Definition miss (g : gobCodec) (innerFS : FS) (noStat : bool) (now d : Z)
           (key : string) : outcome (result ByteView) :=
  match getter g innerFS noStat now d key with
  | Panics => Panics
  | Returns (Err err) => Returns (Err err)
  | Returns (Ok (buf, _)) => Returns (Ok buf)
  end.

Definition Open (g : gobCodec) (ValidPath : string -> bool)
           (cfs : cacheFS) (name : string) : outcome (result file) :=
  if negb (ValidPath name) then Returns (Err (PathError "open" name ErrInvalid))
  else
    match cache_Get cfs name with
    | Panics => Panics
    | Returns (Err err) => Returns (Err (PathError "open" name err))
    | Returns (Ok buf) =>
        match decodeRecord g name buf with
        | Panics => Panics
        | Returns (Err err) => Returns (Err err)
        | Returns (Ok (f, _)) => Returns (Ok f)
        end
    end.

End mailgun.

(* ================================================================== *)
(** * Properties *)
(* ================================================================== *)

(** ** Directory paging *)

Lemma len_nonneg {A : Type} (l : list A) : 0 <= len l.
Proof. unfold len. lia. Qed.

Lemma len_nil_iff {A : Type} (l : list A) : len l = 0 <-> l = [].
Proof.
  unfold len. destruct l; simpl; split; intros H; try reflexivity; try discriminate; lia.
Qed.

Lemma len_app {A : Type} (l1 l2 : list A) : len (l1 ++ l2) = len l1 + len l2.
Proof. unfold len. rewrite length_app. lia. Qed.

(** Within bounds the copy loop is the slice [src[i : i+k]]. *)
Lemma copyRange_slice {A : Type} (src : list A) (k i : nat) :
  (i + k <= List.length src)%nat ->
  copyRange src i k = Returns (firstn k (skipn i src)).
Proof.
  revert i. induction k as [|k IH]; intros i Hik; simpl.
  - reflexivity.
  - destruct (nth_error src i) as [x|] eqn:Hx.
    + rewrite IH by lia.
      assert (Hs : skipn i src = x :: skipn (S i) src).
      { clear -Hx. revert i Hx. induction src as [|a src IHs]; intros [|i] Hx; simpl in *;
          try discriminate.
        - now inversion Hx.
        - now apply IHs. }
      rewrite Hs. reflexivity.
    + apply nth_error_None in Hx. lia.
Qed.

Lemma copyRange_all {A : Type} (src : list A) :
  copyRange src 0 (List.length src) = Returns src.
Proof.
  rewrite copyRange_slice by lia. simpl. now rewrite firstn_all.
Qed.

(** What the [n <= 0] branch computes: the whole listing, whatever the
    cursor, and the file is left as it was. *)
Lemma ReadDir_nonpositive (f : file) (n : Z) :
  fileInfo_IsDir (FI f) = true -> n <= 0 ->
  ReadDir f n = Returns (f, (Dirs f, None)).
Proof.
  intros Hd Hn. unfold ReadDir. rewrite Hd. simpl.
  destruct (n <=? 0) eqn:E; [|lia].
  now rewrite copyRange_all.
Qed.

(** What the [n > 0] branch computes while the cursor is within the
    listing. *)
Lemma ReadDir_positive (f : file) (n : Z) :
  fileInfo_IsDir (FI f) = true -> 0 < n -> 0 <= pos f <= len (Dirs f) ->
  ReadDir f n =
    if pos f =? len (Dirs f) then Returns (f, ([], Some EOF))
    else Returns (set_pos f (pos f + Z.min n (len (Dirs f) - pos f)),
                  (firstn (Z.to_nat n) (skipn (Z.to_nat (pos f)) (Dirs f)), None)).
Proof.
  intros Hd Hn Hp. unfold ReadDir. rewrite Hd. simpl.
  destruct (n <=? 0) eqn:E; [lia|]. clear E.
  set (r := len (Dirs f) - pos f).
  assert (Hr : 0 <= r) by (unfold r; lia).
  destruct (pos f =? len (Dirs f)) eqn:Epos.
  - assert (r = 0) by (unfold r; lia).
    destruct (n <? r) eqn:E1; [lia|]. destruct (r =? 0) eqn:E2; [reflexivity|lia].
  - assert (0 < r) by (unfold r; lia).
    assert (Hlen : List.length (skipn (Z.to_nat (pos f)) (Dirs f)) = Z.to_nat r).
    { rewrite length_skipn. unfold r, len. lia. }
    destruct (n <? r) eqn:E1.
    + destruct (n =? 0) eqn:E2; [lia|]. destruct (n <? 0) eqn:E3; [lia|].
      destruct (pos f <? 0) eqn:E4; [lia|].
      rewrite copyRange_slice by (unfold r, len in *; lia).
      rewrite Z.min_l by lia. reflexivity.
    + destruct (r =? 0) eqn:E2; [lia|]. destruct (r <? 0) eqn:E3; [lia|].
      destruct (pos f <? 0) eqn:E4; [lia|].
      rewrite copyRange_slice by (unfold r, len in *; lia).
      rewrite Z.min_r by lia. fold r.
      rewrite !firstn_all2 by lia. reflexivity.
Qed.

Lemma ceil_div_step (r n m : Z) :
  0 < n -> 0 < r -> m = Z.min n r ->
  (r + n - 1) / n = 1 + (r - m + n - 1) / n.
Proof.
  intros Hn Hr ->. destruct (Z.le_gt_cases n r) as [Hle|Hgt].
  - rewrite Z.min_l by lia.
    replace (r + n - 1) with ((r - n + n - 1) + 1 * n) by lia.
    rewrite Z.div_add by lia. lia.
  - rewrite Z.min_r by lia.
    replace (r - r + n - 1) with (n - 1) by lia.
    rewrite (Z.div_small (n - 1)) by lia.
    assert (H1 : (r + n - 1) / n < 2) by (apply Z.div_lt_upper_bound; lia).
    assert (H2 : 1 <= (r + n - 1) / n) by (apply Z.div_le_lower_bound; lia).
    lia.
Qed.

Lemma firstn_min_length {A : Type} (l : list A) (n m : nat) :
  m = Nat.min n (List.length l) -> firstn n l = firstn m l.
Proof.
  intros ->. destruct (Nat.le_gt_cases n (List.length l)).
  - now rewrite Nat.min_l.
  - rewrite Nat.min_r by lia. rewrite !firstn_all2; auto; lia.
Qed.

(** The paging loop from any cursor within the listing. *)
Lemma readDirLoop_from (n : Z) (fuel : nat) :
  0 < n ->
  forall f, fileInfo_IsDir (FI f) = true -> 0 <= pos f <= len (Dirs f) ->
  (Z.to_nat (len (Dirs f) - pos f) < fuel)%nat ->
  exists batches f',
    readDirLoop fuel f n = Some (Returns (batches, ([], EOF), f')) /\
    List.concat batches = skipn (Z.to_nat (pos f)) (Dirs f) /\
    len batches = (len (Dirs f) - pos f + n - 1) / n /\
    Forall (fun b => b <> [] /\ len b <= n) batches /\
    pos f' = len (Dirs f) /\ Dirs f' = Dirs f /\ FI f' = FI f.
Proof.
  intros Hn. induction fuel as [|fuel IH]; intros f Hd Hp Hfuel; [lia|].
  simpl. rewrite ReadDir_positive by assumption.
  destruct (pos f =? len (Dirs f)) eqn:Epos.
  - exists [], f. repeat split; try lia; try constructor.
    + simpl. rewrite skipn_all2; [reflexivity|]. unfold len in *. lia.
    + replace (len (Dirs f) - pos f + n - 1) with (n - 1) by lia.
      rewrite Z.div_small by lia. reflexivity.
  - set (m := Z.min n (len (Dirs f) - pos f)).
    set (f1 := set_pos f (pos f + m)).
    assert (Hm : 0 < m <= len (Dirs f) - pos f) by (unfold m; lia).
    destruct (IH f1) as (batches & f' & Hloop & Hcat & Hcnt & Hall & Hpos' & Hdirs & Hfi).
    + exact Hd.
    + simpl. lia.
    + simpl. lia.
    + rewrite Hloop. simpl in *.
      set (rest := skipn (Z.to_nat (pos f)) (Dirs f)) in *.
      assert (Hrest : List.length rest = Z.to_nat (len (Dirs f) - pos f)).
      { unfold rest. rewrite length_skipn. unfold len. lia. }
      assert (Hb : firstn (Z.to_nat n) rest = firstn (Z.to_nat m) rest).
      { apply firstn_min_length. rewrite Hrest. unfold m. lia. }
      rewrite Hb.
      assert (Hlb : len (firstn (Z.to_nat m) rest) = m).
      { unfold len. rewrite length_firstn, Hrest. lia. }
      exists (firstn (Z.to_nat m) rest :: batches), f'. repeat split; try assumption.
      * simpl. rewrite Hcat.
        replace (Z.to_nat (pos f + m)) with (Z.to_nat m + Z.to_nat (pos f))%nat by lia.
        rewrite <- skipn_skipn. apply firstn_skipn.
      * change (len (firstn (Z.to_nat m) rest :: batches)) with
          (Z.of_nat (S (List.length batches))).
        unfold len in Hcnt. rewrite Nat2Z.inj_succ, Hcnt.
        rewrite (ceil_div_step (len (Dirs f) - pos f) n m) by (unfold m; lia).
        unfold len.
        replace (Z.of_nat (List.length (Dirs f)) - (pos f + m) + n - 1)
          with (Z.of_nat (List.length (Dirs f)) - pos f - m + n - 1) by lia.
        lia.
      * constructor; [|assumption]. split; [|lia].
        intros Hnil. rewrite Hnil in Hlb. unfold len in Hlb. simpl in Hlb. lia.
Qed.

(** One call keeps the cursor inside the listing, never moves it
    backwards and never touches the listing. *)
Lemma ReadDir_cursor_step (f : file) (n : Z) :
  0 <= pos f <= len (Dirs f) ->
  exists f' r,
    ReadDir f n = Returns (f', r) /\
    0 <= pos f' <= len (Dirs f') /\ pos f <= pos f' /\
    Dirs f' = Dirs f /\ FI f' = FI f.
Proof.
  intros Hp. destruct (fileInfo_IsDir (FI f)) eqn:Hd.
  - destruct (Z.le_gt_cases n 0) as [Hn|Hn].
    + rewrite ReadDir_nonpositive by assumption.
      eexists _, _. split; [reflexivity|]. repeat split; lia.
    + rewrite ReadDir_positive by (assumption || lia).
      destruct (pos f =? len (Dirs f)) eqn:E.
      * eexists _, _. split; [reflexivity|]. repeat split; lia.
      * eexists _, _. split; [reflexivity|]. simpl. repeat split; lia.
  - unfold ReadDir. rewrite Hd. simpl.
    eexists _, _. split; [reflexivity|]. repeat split; lia.
Qed.

Lemma ReadDirs_cursor (ns : list Z) :
  forall f, 0 <= pos f <= len (Dirs f) ->
  exists f', ReadDirs f ns = Returns f' /\
             0 <= pos f' <= len (Dirs f') /\ Dirs f' = Dirs f /\ FI f' = FI f.
Proof.
  induction ns as [|n ns IH]; intros f Hp; simpl.
  - exists f. repeat split; lia.
  - destruct (ReadDir_cursor_step f n Hp) as (f1 & r & Hr & Hp1 & _ & Hd1 & Hf1).
    rewrite Hr. destruct (IH f1 Hp1) as (f' & Hrs & Hp' & Hd' & Hf').
    exists f'. repeat split; try assumption; try lia; congruence.
Qed.

(** C3. Paging with [n > 0] on a directory: a call returns the next
    [min n (N - cursor)] children in listing order and advances the cursor
    by that count; at the end of the listing it returns nothing together
    with [io.EOF]; an empty slice never comes without [io.EOF]; and from
    cursor 0 the caller's loop sees [ceil(N/n)] non-empty batches whose
    concatenation is the listing, then one empty [io.EOF] result. *)
Theorem ReadDir_paging (f : file) (n : Z) :
  fileInfo_IsDir (FI f) = true -> 0 < n -> 0 <= pos f <= len (Dirs f) ->
  (exists f' batch err,
      ReadDir f n = Returns (f', (batch, err)) /\
      batch = firstn (Z.to_nat (Z.min n (len (Dirs f) - pos f)))
                     (skipn (Z.to_nat (pos f)) (Dirs f)) /\
      len batch <= n /\
      pos f' = pos f + len batch /\ Dirs f' = Dirs f /\
      (pos f = len (Dirs f) -> batch = [] /\ err = Some EOF) /\
      (pos f < len (Dirs f) -> batch <> [] /\ err = None) /\
      (batch = [] -> err = Some EOF))
  /\
  (pos f = 0 ->
   forall fuel, (List.length (Dirs f) < fuel)%nat ->
   exists batches f',
     readDirLoop fuel f n = Some (Returns (batches, ([], EOF), f')) /\
     List.concat batches = Dirs f /\
     len batches = (len (Dirs f) + n - 1) / n /\
     Forall (fun b => b <> [] /\ len b <= n) batches /\
     pos f' = len (Dirs f)).
Proof.
  intros Hd Hn Hp. split.
  - rewrite ReadDir_positive by assumption.
    destruct (pos f =? len (Dirs f)) eqn:E.
    + apply Z.eqb_eq in E.
      exists f, [], (Some EOF). split; [reflexivity|].
      replace (len (Dirs f) - pos f) with 0 by lia. rewrite Z.min_r by lia.
      simpl. change (len (@nil dirEntry)) with 0.
      repeat split; try lia; try reflexivity; intros; exfalso; lia.
    + apply Z.eqb_neq in E.
      set (rest := skipn (Z.to_nat (pos f)) (Dirs f)).
      set (m := Z.min n (len (Dirs f) - pos f)).
      assert (Hrest : List.length rest = Z.to_nat (len (Dirs f) - pos f)).
      { unfold rest. rewrite length_skipn. unfold len. lia. }
      assert (Hb : firstn (Z.to_nat n) rest = firstn (Z.to_nat m) rest).
      { apply firstn_min_length. rewrite Hrest. unfold m. lia. }
      assert (Hlb : len (firstn (Z.to_nat m) rest) = m).
      { unfold len. rewrite length_firstn, Hrest. unfold m. lia. }
      assert (Hne : firstn (Z.to_nat m) rest <> []).
      { intros Hnil. rewrite Hnil in Hlb. unfold len, m in Hlb. simpl in Hlb. lia. }
      eexists _, _, _. split; [reflexivity|]. simpl. rewrite Hb, Hlb.
      repeat split; try reflexivity; try assumption; try (unfold m; lia).
      intros Hnil. now elim Hne.
  - intros H0 fuel Hfuel.
    destruct (readDirLoop_from n fuel Hn f Hd Hp) as
      (batches & f' & Hloop & Hcat & Hcnt & Hall & Hpos & _).
    + unfold len. lia.
    + exists batches, f'. rewrite H0 in Hcat, Hcnt. simpl in Hcat.
      rewrite Z.sub_0_r in Hcnt. repeat split; assumption.
Qed.

Lemma ReadDir_paging_witness :
  exists batches f',
    readDirLoop 4 sampleDir 2 = Some (Returns (batches, ([], EOF), f')) /\
    List.concat batches = Dirs sampleDir /\ len batches = 2.
Proof.
  destruct (ReadDir_paging sampleDir 2) as [_ Hloop].
  - reflexivity.
  - lia.
  - simpl. unfold len. simpl. lia.
  - destruct (Hloop eq_refl 4%nat) as (batches & f' & H1 & H2 & H3 & _).
    + simpl. lia.
    + exists batches, f'. repeat split; assumption.
Defined.

(** C2 (what the code does). After two of the three children have been
    paged out, [ReadDir(-1)] hands back all three children again and
    leaves the cursor at 2; a fresh [ReadDir(0)] leaves the cursor at 0. *)
Theorem ReadDir_all_ignores_cursor :
  exists f1,
    ReadDir sampleDir 2 = Returns (f1, ([child "a"; child "b"], None)) /\
    pos f1 = 2 /\
    ReadDir f1 (-1) = Returns (f1, ([child "a"; child "b"; child "c"], None)) /\
    ReadDir sampleDir 0 = Returns (sampleDir, (Dirs sampleDir, None)) /\
    pos sampleDir = 0 /\ len (Dirs sampleDir) = 3.
Proof.
  eexists. repeat split.
Qed.

(** ** The counting reader *)

Lemma tinyEncode_samples :
  tinyEncode (mkFile None sampleInfo 0 []) = Ok sampleHeader /\
  tinyEncode sampleDir = Ok sampleDirHeader.
Proof. split; reflexivity. Qed.

Lemma bytesReader_Read_index (r : bytesReader) (buf : list byte) :
  0 <= br_i r <= len (br_s r) ->
  let '(r', (_, n, _)) := Read r buf in
  br_s r' = br_s r /\ br_i r' = br_i r + n /\ 0 <= n /\ br_i r' <= len (br_s r).
Proof.
  intros Hi. simpl. unfold bytesReader_Read.
  destruct (len (br_s r) <=? br_i r) eqn:E.
  - simpl. repeat split; lia.
  - apply Z.leb_gt in E. unfold copy. simpl. rewrite length_skipn.
    unfold len in *. repeat split; lia.
Qed.

(** On a [bytes.Reader], reading one byte through [Read] into a
    one-byte buffer is [ReadByte]. *)
Lemma bytesReader_Read_one (r : bytesReader) :
  0 <= br_i r ->
  let '(r', (buf', _, err)) := Read r [x00] in
  (r', (nth 0 buf' x00, err)) = ReadByte r.
Proof.
  intros Hi. simpl. unfold bytesReader_Read, bytesReader_ReadByte.
  destruct (len (br_s r) <=? br_i r) eqn:E; [reflexivity|].
  apply Z.leb_gt in E. unfold len in E.
  destruct (skipn (Z.to_nat (br_i r)) (br_s r)) as [|b rest] eqn:Hs.
  - apply (f_equal (@List.length byte)) in Hs. rewrite length_skipn in Hs. simpl in Hs. lia.
  - unfold copy. simpl.
    assert (Hb : nth (Z.to_nat (br_i r)) (br_s r) x00 = b).
    { rewrite <- (firstn_skipn (Z.to_nat (br_i r)) (br_s r)), Hs.
      rewrite app_nth2; rewrite length_firstn; [|lia].
      replace (Z.to_nat (br_i r) - Nat.min (Z.to_nat (br_i r)) (List.length (br_s r)))%nat
        with 0%nat by lia.
      reflexivity. }
    rewrite Hb. reflexivity.
Qed.

(** The counting reader is transparent to any decoder, and its count is
    exactly the distance the underlying reader advanced. *)
Lemma runDecoder_counting {A : Type} (d : decoder A) :
  forall (r : bytesReader) (c : Z),
    0 <= br_i r <= len (br_s r) ->
    let '(r', res) := runDecoder d r in
    runDecoder d (mkCountingReader r c) =
      (mkCountingReader r' (c + (br_i r' - br_i r)), res) /\
    br_s r' = br_s r /\ br_i r <= br_i r' <= len (br_s r).
Proof.
  induction d as [a|e|buf k IH|k IH]; intros r c Hi.
  - simpl. split; [f_equal; f_equal; lia | split; [reflexivity|lia]].
  - simpl. split; [f_equal; f_equal; lia | split; [reflexivity|lia]].
  - pose proof (bytesReader_Read_index r buf Hi) as Hrd.
    cbn [runDecoder]. change (Read (mkCountingReader r c) buf) with
      (countingReader_Read (mkCountingReader r c) buf).
    unfold countingReader_Read. cbn [Reader count].
    destruct (Read r buf) as (r1, ((buf', n), err)) eqn:Hread.
    destruct Hrd as (Hs1 & Hi1 & Hn & Hle).
    specialize (IH buf' n err r1 (c + n)).
    destruct (runDecoder (k buf' n err) r1) as (r', res) eqn:Hrun.
    destruct IH as (IH1 & IH2 & IH3); [rewrite Hs1; lia|].
    rewrite IH1. split; [f_equal; f_equal; lia|]. split; [congruence|].
    rewrite Hs1 in IH3. lia.
  - pose proof (bytesReader_Read_one r (proj1 Hi)) as Hone.
    pose proof (bytesReader_Read_index r [x00] Hi) as Hrd.
    cbn [runDecoder]. change (ReadByte (mkCountingReader r c)) with
      (countingReader_ReadByte (mkCountingReader r c)).
    unfold countingReader_ReadByte, countingReader_Read. cbn [Reader count].
    destruct (Read r [x00]) as (r1, ((buf', n), err)) eqn:Hread.
    rewrite <- Hone.
    destruct Hrd as (Hs1 & Hi1 & Hn & Hle).
    specialize (IH (nth 0 buf' x00) err r1 (c + n)).
    destruct (runDecoder (k (nth 0 buf' x00) err) r1) as (r', res) eqn:Hrun.
    destruct IH as (IH1 & IH2 & IH3); [rewrite Hs1; lia|].
    rewrite IH1. split; [f_equal; f_equal; lia|]. split; [congruence|].
    rewrite Hs1 in IH3. lia.
Qed.

(** The decode path of [Open], for any decoder: it never panics; a
    decode error becomes an "open" error; otherwise the offset is the
    number of bytes the decoder consumed, the content view is the rest of
    the buffer and the cursor is 0. *)
Lemma decodeRecord_spec (g : gobCodec) (name : string) (buf : ByteView) :
  let '(r', res) := runDecoder (gobDecode g) (NewReader buf) in
  0 <= br_i r' <= len buf /\
  decodeRecord g name buf =
    match res with
    | Err err => Returns (Err (PathError "open" name err))
    | Ok (fi, dirs) =>
        Returns (Ok (mkFile (Some (NewReader (skipn (Z.to_nat (br_i r')) buf))) fi 0 dirs,
                     br_i r'))
    end.
Proof.
  pose proof (runDecoder_counting (gobDecode g) (NewReader buf) 0) as H.
  unfold decodeRecord, ByteView_Reader.
  destruct (runDecoder (gobDecode g) (NewReader buf)) as (r', res).
  destruct H as (Hrun & Hs & Hi); [simpl; pose proof (len_nonneg buf); lia|].
  simpl in Hi, Hs. rewrite Hrun. cbn [NewReader br_i].
  replace (0 + (br_i r' - 0)) with (br_i r') by lia.
  split; [lia|].
  destruct res as [[fi dirs]|err]; [|reflexivity].
  unfold Count, SliceFrom. cbn [count].
  destruct (br_i r' <? 0) eqn:E1; [lia|].
  destruct (len buf <? br_i r') eqn:E2; [lia|].
  reflexivity.
Qed.

Lemma unread_NewReader (b : list byte) : unread (NewReader b) = b.
Proof. reflexivity. Qed.

Lemma skipn_len_app (hdr tail : list byte) :
  skipn (Z.to_nat (len hdr)) (hdr ++ tail) = tail.
Proof.
  unfold len. rewrite Nat2Z.id, skipn_app, skipn_all, Nat.sub_diag. reflexivity.
Qed.

(** Decoding a buffer whose header the decoder consumes exactly. *)
Lemma decodeRecord_header (g : gobCodec) (name : string)
      (hdr tail : list byte) (fi : fileInfo) (dirs : list dirEntry) :
  runDecoder (gobDecode g) (NewReader (hdr ++ tail)) =
    (mkBytesReader (hdr ++ tail) (len hdr), Ok (fi, dirs)) ->
  decodeRecord g name (hdr ++ tail) =
    Returns (Ok (mkFile (Some (NewReader tail)) fi 0 dirs, len hdr)).
Proof.
  intros Hrun. pose proof (decodeRecord_spec g name (hdr ++ tail)) as H.
  rewrite Hrun in H. destruct H as [_ H]. rewrite H. cbn [br_i].
  now rewrite skipn_len_app.
Qed.

(** C1. Round trip of the record codec.  [encoding/gob] is outside the
    package, so its own behaviour on this record enters as the two
    premises: the encoder produced the header [hdr], and the decoder,
    reading [hdr ++ data] from a plain [bytes.Reader], returns the
    encoded fields after consuming exactly [hdr].  Then the getter's
    encode path followed by the decode path of [Open] (through the
    counting reader and [SliceFrom]) gives back the metadata, the children
    in order and the content bytes, and the split offset is the number of
    bytes the decoder consumed. *)
Theorem codec_roundtrip (g : gobCodec) (name : string)
        (fi : fileInfo) (dirs : list dirEntry) (data hdr : list byte) :
  gobEncode g (mkFile None fi 0 dirs) = Ok hdr ->
  runDecoder (gobDecode g) (NewReader (hdr ++ data)) =
    (mkBytesReader (hdr ++ data) (len hdr), Ok (fi, dirs)) ->
  exists buf f off,
    encodeRecord g (mkFile None fi 0 dirs) data = Ok buf /\
    decodeRecord g name buf = Returns (Ok (f, off)) /\
    FI f = fi /\ Dirs f = dirs /\ content f = data /\
    off = len hdr /\ off = br_i (fst (runDecoder (gobDecode g) (NewReader buf))).
Proof.
  intros Henc Hdec.
  exists (hdr ++ data), (mkFile (Some (NewReader data)) fi 0 dirs), (len hdr).
  unfold encodeRecord. rewrite Henc.
  rewrite (decodeRecord_header g name hdr data fi dirs Hdec), Hdec.
  repeat split.
Qed.

Lemma codec_roundtrip_witness :
  exists buf f off,
    encodeRecord tinyCodec (mkFile None sampleInfo 0 []) sampleData = Ok buf /\
    decodeRecord tinyCodec "a.txt" buf = Returns (Ok (f, off)) /\
    FI f = sampleInfo /\ Dirs f = [] /\ content f = sampleData /\
    off = 9 /\ off = br_i (fst (runDecoder tinyDecode (NewReader buf))).
Proof.
  apply (codec_roundtrip tinyCodec "a.txt" sampleInfo [] sampleData sampleHeader);
    reflexivity.
Defined.

(** C7. The decode path never compares the length of the content with
    the size recorded in the metadata: whenever the decoder accepts the
    header of [hdr ++ tail], decoding succeeds and the content view is
    [tail], whatever [Sz] says. *)
Theorem decode_ignores_size (g : gobCodec) (name : string)
        (hdr tail : list byte) (fi : fileInfo) (dirs : list dirEntry) :
  runDecoder (gobDecode g) (NewReader (hdr ++ tail)) =
    (mkBytesReader (hdr ++ tail) (len hdr), Ok (fi, dirs)) ->
  exists f,
    decodeRecord g name (hdr ++ tail) = Returns (Ok (f, len hdr)) /\
    FI f = fi /\ Dirs f = dirs /\ content f = tail /\
    fileInfo_Size (FI f) = Sz fi.
Proof.
  intros Hdec. exists (mkFile (Some (NewReader tail)) fi 0 dirs).
  rewrite (decodeRecord_header g name hdr tail fi dirs Hdec). repeat split.
Qed.

(** The header says two bytes, the tail has five: decoding succeeds. *)
Lemma decode_ignores_size_witness :
  exists f,
    decodeRecord tinyCodec "a.txt" (sampleHeader ++ longTail) = Returns (Ok (f, 9)) /\
    FI f = sampleInfo /\ Dirs f = [] /\ content f = longTail /\
    fileInfo_Size (FI f) = 2 /\ len (content f) = 5.
Proof.
  destruct (decode_ignores_size tinyCodec "a.txt" sampleHeader longTail sampleInfo [])
    as (f & H1 & H2 & H3 & H4 & H5).
  - reflexivity.
  - exists f. rewrite H4. repeat split; assumption.
Defined.

(** C9. A file produced by the decode path starts with cursor 0, and
    after any sequence of [ReadDir] calls, with any arguments, the cursor
    lies between 0 and the number of children. *)
Theorem cursor_invariant (g : gobCodec) (name : string) (buf : ByteView)
        (f : file) (off : Z) (ns : list Z) :
  decodeRecord g name buf = Returns (Ok (f, off)) ->
  pos f = 0 /\
  exists f', ReadDirs f ns = Returns f' /\
             0 <= pos f' <= len (Dirs f') /\ Dirs f' = Dirs f.
Proof.
  intros Hdec. pose proof (decodeRecord_spec g name buf) as H.
  destruct (runDecoder (gobDecode g) (NewReader buf)) as (r', res).
  destruct H as [_ H]. rewrite H in Hdec.
  destruct res as [[fi dirs]|err]; [|discriminate].
  inversion Hdec; subst f off. clear Hdec H. split; [reflexivity|].
  destruct (ReadDirs_cursor ns
              (mkFile (Some (NewReader (skipn (Z.to_nat (br_i r')) buf))) fi 0 dirs))
    as (f' & H1 & H2 & H3 & _).
  - simpl. pose proof (len_nonneg dirs). lia.
  - exists f'. repeat split; assumption || lia.
Qed.

Lemma cursor_invariant_witness :
  let f := mkFile (Some (NewReader [])) (FI sampleDir) 0 (Dirs sampleDir) in
  decodeRecord tinyCodec "." sampleDirHeader = Returns (Ok (f, 17)) /\
  exists f', ReadDirs f [2; 0; -1; 5; 1] = Returns f' /\ 0 <= pos f' <= len (Dirs f').
Proof.
  intros f.
  assert (Hdec : decodeRecord tinyCodec "." sampleDirHeader = Returns (Ok (f, 17)))
    by (vm_compute; reflexivity).
  split; [exact Hdec|].
  destruct (cursor_invariant tinyCodec "." sampleDirHeader f 17 [2; 0; -1; 5; 1] Hdec)
    as (_ & f' & H1 & H2 & _).
  exists f'. split; assumption.
Defined.

(** ** Loading a directory *)

Lemma listDirs_from (entries : list DirEntry) :
  forall acc, fold_left (appendEntry false) entries acc = acc ++ childSummaries entries.
Proof.
  induction entries as [|e entries IH]; intros acc; simpl.
  - now rewrite app_nil_r.
  - rewrite IH. unfold appendEntry. simpl.
    destruct (entry_Info e) as [fi|err]; simpl.
    + now rewrite <- app_assoc.
    + reflexivity.
Qed.

(** C8. With per-child metadata collection on, a child whose [Info()]
    fails is left out: the listing that reaches the encoder is exactly the
    children whose [Info()] succeeded, in enumeration order, and the load
    returns whatever encoding that listing returns; in particular it
    succeeds when the encoder does, and no child error is returned. *)
Theorem load_skips_failed_children (g : gobCodec) (innerFS : FS) (path : string)
        (f : File) (info : FileInfo) (entries : list DirEntry) :
  innerFS path = Ok f ->
  File_Stat f = Ok info ->
  info_IsDir info = true ->
  File_ReadDir f = Some (entries, None) ->
  let resultFile :=
    mkFile None (mkFileInfo (info_Name info) (info_Size info)
                            (info_Mode info) (info_ModTime info))
           0 (childSummaries entries) in
  listDirs false entries = childSummaries entries /\
  load g innerFS false path = Returns (encodeRecord g resultFile []) /\
  (forall hdr, gobEncode g resultFile = Ok hdr ->
               load g innerFS false path = Returns (Ok (hdr ++ []))).
Proof.
  intros Hopen Hstat Hdir Hread resultFile.
  assert (Hl : listDirs false entries = childSummaries entries).
  { unfold listDirs. now rewrite listDirs_from. }
  assert (Hload : load g innerFS false path = Returns (encodeRecord g resultFile [])).
  { unfold load. rewrite Hopen, Hstat, Hdir, Hread, Hl. reflexivity. }
  repeat split; try assumption.
  intros hdr Henc. rewrite Hload. unfold encodeRecord. now rewrite Henc.
Qed.

Lemma load_skips_failed_children_witness :
  listDirs false sampleEntries =
    [mkDirEntry (mkFileInfo "a" 7 0 zeroTime); mkDirEntry (mkFileInfo "c" 7 0 zeroTime)] /\
  load tinyCodec sampleFS false "." =
    Returns (Ok [x01; x00; x01; x2e; x02; x01; x07; x00; x61; x01; x07; x00; x63]).
Proof.
  destruct (load_skips_failed_children tinyCodec sampleFS "." sampleRoot
              (mkFSInfo "." 0 ModeDir zeroTime true) sampleEntries
              eq_refl eq_refl eq_refl eq_refl) as (H1 & _ & H3).
  split; [exact H1|].
  exact (H3 [x01; x00; x01; x2e; x02; x01; x07; x00; x61; x01; x07; x00; x63] eq_refl).
Defined.

(** ** Cache keys *)

Ltac each_ascii c := destruct c as [[] [] [] [] [] [] [] []].

(** A byte that is not escaped is neither an escape introducer nor a
    separator of the query syntax. *)
Lemma unescaped_plain (c : ascii) :
  shouldEscape c = false ->
  Ascii.eqb c "%" = false /\ Ascii.eqb c "+" = false /\
  Ascii.eqb c "&" = false /\ Ascii.eqb c "=" = false /\ Ascii.eqb c ";" = false.
Proof.
  each_ascii c; vm_compute; intros H; try discriminate H; repeat split.
Qed.

(** The two hex digits written for an escaped byte read back as it, and
    neither is a separator. *)
Lemma hex_roundtrip (c : ascii) :
  let hi := hexdigit (Z.shiftr (code c) 4) in
  let lo := hexdigit (Z.land (code c) 15) in
  ishex hi = true /\ ishex lo = true /\
  chr (Z.lor (Z.shiftl (unhex hi) 4) (unhex lo)) = c /\
  (Ascii.eqb hi "&" = false /\ Ascii.eqb hi "=" = false /\ Ascii.eqb hi ";" = false) /\
  (Ascii.eqb lo "&" = false /\ Ascii.eqb lo "=" = false /\ Ascii.eqb lo ";" = false).
Proof.
  each_ascii c; vm_compute; repeat split.
Qed.

Lemma unescapeCheck_nonneg (s : string) :
  forall n hp, unescapeCheck s = Ok (n, hp) -> 0 <= n.
Proof.
  remember (String.length s) as k eqn:Hk.
  assert (Hle : (String.length s <= k)%nat) by lia. clear Hk.
  revert s Hle. induction k as [|k IH]; intros s Hle n hp H.
  - destruct s; [|simpl in Hle; lia]. inversion H. lia.
  - destruct s as [|c rest]; [inversion H; lia|].
    cbn [unescapeCheck] in H. destruct (Ascii.eqb c "%").
    + destruct rest as [|a [|b rest']]; try discriminate.
      destruct (ishex a && ishex b); [|discriminate].
      destruct (unescapeCheck rest') as [[n' hp']|] eqn:E; [|discriminate].
      inversion H; subst. apply IH in E; [lia|]. simpl in Hle. lia.
    + destruct (unescapeCheck rest) as [[n' hp']|] eqn:E; [|discriminate].
      inversion H; subst. apply IH in E; [lia|]. simpl in Hle. lia.
Qed.

Lemma unescapeCheck_escapeWrite (s : string) :
  exists n hasPlus, unescapeCheck (escapeWrite s) = Ok (n, hasPlus).
Proof.
  induction s as [|c s (n & hp & IH)].
  - exists 0, false. reflexivity.
  - cbn [escapeWrite]. destruct (shouldEscape c) eqn:Hc.
    + destruct (Ascii.eqb c " ") eqn:Hsp.
      * cbn [unescapeCheck]. change (Ascii.eqb "+" "%") with false. cbv iota.
        rewrite IH. eexists _, _. reflexivity.
      * destruct (hex_roundtrip c) as (Hhi & Hlo & _).
        cbn [unescapeCheck]. rewrite Ascii.eqb_refl, Hhi, Hlo, IH. simpl.
        eexists _, _. reflexivity.
    + destruct (unescaped_plain c Hc) as (Hp & _).
      cbn [unescapeCheck]. rewrite Hp, IH. eexists _, _. reflexivity.
Qed.

Lemma unescapeWrite_escapeWrite (s : string) :
  unescapeWrite (escapeWrite s) = s.
Proof.
  induction s as [|c s IH]; [reflexivity|].
  cbn [escapeWrite]. destruct (shouldEscape c) eqn:Hc.
  - destruct (Ascii.eqb c " ") eqn:Hsp.
    + apply Ascii.eqb_eq in Hsp. subst c. cbn [unescapeWrite].
      change (Ascii.eqb "+" "%") with false. rewrite Ascii.eqb_refl. cbv iota.
      now rewrite IH.
    + destruct (hex_roundtrip c) as (_ & _ & Hchr & _).
      cbn [unescapeWrite]. rewrite Ascii.eqb_refl, Hchr, IH. reflexivity.
  - destruct (unescaped_plain c Hc) as (Hp & Hplus & _).
    cbn [unescapeWrite]. rewrite Hp, Hplus, IH. reflexivity.
Qed.

(** When the checking pass finds nothing to rewrite, rewriting is the
    identity. *)
Lemma unescapeWrite_clean (s : string) :
  unescapeCheck s = Ok (0, false) -> unescapeWrite s = s.
Proof.
  induction s as [|c s IH]; intros H; [reflexivity|].
  cbn [unescapeCheck] in H. cbn [unescapeWrite].
  destruct (Ascii.eqb c "%") eqn:Hp.
  - destruct s as [|a [|b rest']]; try discriminate.
    destruct (ishex a && ishex b); [|discriminate].
    destruct (unescapeCheck rest') as [[n' hp']|] eqn:E; [|discriminate].
    apply unescapeCheck_nonneg in E. inversion H. lia.
  - destruct (unescapeCheck s) as [[n' hp']|] eqn:E; [|discriminate].
    destruct (Ascii.eqb c "+"); [inversion H|].
    inversion H; subst. now rewrite IH.
Qed.

(** When nothing is counted, the rewriting pass of [escape] is the
    identity, so [QueryEscape] is always the rewritten string. *)
Lemma escapeWrite_clean (s : string) :
  escapeCount s = (0, 0) -> escapeWrite s = s.
Proof.
  assert (Hnn : forall s, 0 <= fst (escapeCount s) /\ 0 <= snd (escapeCount s)).
  { clear s. induction s as [|c s IH]; simpl; [lia|].
    destruct (escapeCount s) as [sp hx]. simpl in IH.
    destruct (shouldEscape c); [destruct (Ascii.eqb c " ")|]; simpl; lia. }
  induction s as [|c s IH]; intros H; [reflexivity|].
  cbn [escapeCount escapeWrite] in *. specialize (Hnn s).
  destruct (escapeCount s) as [sp hx]. simpl in Hnn.
  destruct (shouldEscape c).
  - destruct (Ascii.eqb c " "); inversion H; lia.
  - rewrite IH by assumption. reflexivity.
Qed.

Lemma QueryEscape_escapeWrite (s : string) : QueryEscape s = escapeWrite s.
Proof.
  unfold QueryEscape. destruct (escapeCount s) as [sp hx] eqn:E.
  destruct ((sp =? 0) && (hx =? 0)) eqn:B; [|reflexivity].
  apply andb_true_iff in B. destruct B as [B1 B2].
  apply Z.eqb_eq in B1, B2. subst. symmetry. now apply escapeWrite_clean.
Qed.

Lemma QueryUnescape_QueryEscape (s : string) :
  QueryUnescape (QueryEscape s) = Ok s.
Proof.
  rewrite QueryEscape_escapeWrite. unfold QueryUnescape.
  destruct (unescapeCheck_escapeWrite s) as (n & hp & Hc). rewrite Hc.
  destruct ((n =? 0) && negb hp) eqn:B.
  - apply andb_true_iff in B. destruct B as [B1 B2].
    apply Z.eqb_eq in B1. apply negb_true_iff in B2. subst.
    rewrite <- (unescapeWrite_clean _ Hc). now rewrite unescapeWrite_escapeWrite.
  - now rewrite unescapeWrite_escapeWrite.
Qed.

Lemma Contains_append (a b : string) (c : ascii) :
  Contains (a ++ b)%string c = Contains a c || Contains b c.
Proof.
  induction a as [|x a IH]; simpl; [reflexivity|]. rewrite IH. now rewrite orb_assoc.
Qed.

(** An escaped string contains none of the separators. *)
Lemma QueryEscape_no_separator (s : string) :
  Contains (QueryEscape s) "&" = false /\
  Contains (QueryEscape s) "=" = false /\
  Contains (QueryEscape s) ";" = false.
Proof.
  rewrite QueryEscape_escapeWrite.
  induction s as [|c s (IH1 & IH2 & IH3)]; [repeat split|].
  cbn [escapeWrite]. destruct (shouldEscape c) eqn:Hc.
  - destruct (Ascii.eqb c " ").
    + cbn [Contains]. rewrite IH1, IH2, IH3. repeat split.
    + destruct (hex_roundtrip c) as (_ & _ & _ & (H1 & H2 & H3) & (H4 & H5 & H6)).
      cbn [Contains]. rewrite H1, H2, H3, H4, H5, H6, IH1, IH2, IH3. repeat split.
  - destruct (unescaped_plain c Hc) as (_ & _ & H1 & H2 & H3).
    cbn [Contains]. rewrite H1, H2, H3, IH1, IH2, IH3. repeat split.
Qed.

Lemma Cut_found (a b : string) (sep : ascii) :
  Contains a sep = false ->
  Cut (a ++ String sep b)%string sep = (a, b, true).
Proof.
  induction a as [|x a IH]; simpl; intros H.
  - now rewrite Ascii.eqb_refl.
  - apply orb_false_iff in H. destruct H as [H1 H2]. rewrite H1, IH by assumption.
    reflexivity.
Qed.

Lemma Cut_missing (a : string) (sep : ascii) :
  Contains a sep = false -> Cut a sep = (a, EmptyString, false).
Proof.
  induction a as [|x a IH]; simpl; intros H; [reflexivity|].
  apply orb_false_iff in H. destruct H as [H1 H2]. rewrite H1, IH by assumption.
  reflexivity.
Qed.

Lemma string_app_assoc (a b c : string) :
  ((a ++ b) ++ c = a ++ (b ++ c))%string.
Proof. induction a as [|x a IH]; simpl; [reflexivity|now rewrite IH]. Qed.

Lemma string_length_app (a b : string) :
  String.length (a ++ b)%string = (String.length a + String.length b)%nat.
Proof. induction a as [|x a IH]; simpl; [reflexivity|now rewrite IH]. Qed.

(** The key is the escaped path under [path], then the escaped bucket
    under [t]. *)
Lemma cacheKey_shape (t : Z) (name : string) :
  cacheKey t name =
    ("path=" ++ QueryEscape name ++ String "&" ("t=" ++ QueryEscape (FormatInt t)))%string.
Proof.
  unfold cacheKey, Values_Encode. simpl. now rewrite string_app_assoc.
Qed.

Lemma parseQuery_empty (fuel : nat) (m : Values) (err : option error) :
  parseQuery fuel m EmptyString err = (m, err).
Proof. destruct fuel; reflexivity. Qed.

Lemma length_eqb_0_sep (a b : string) (c : ascii) :
  (String.length (a ++ String c b)%string =? 0)%nat = false.
Proof. destruct a; reflexivity. Qed.

(** One round of [parseQuery] on a pair written by [Encode]. *)
Lemma parseQuery_pair (fuel : nat) (m : Values) (key value : string)
      (err : option error) (query : string) :
  let pair := (QueryEscape key ++ String "=" (QueryEscape value))%string in
  (query = pair \/ exists rest, query = (pair ++ String "&" rest)%string) ->
  parseQuery (S fuel) m query err =
    parseQuery fuel (Values_append m key value)
               (snd (fst (Cut query "&"))) err /\
  snd (fst (Cut query "&")) =
    match Cut query "&" with (_, rest, _) => rest end.
Proof.
  intros pair Hq.
  destruct (QueryEscape_no_separator key) as (Hk1 & Hk2 & Hk3).
  destruct (QueryEscape_no_separator value) as (Hv1 & Hv2 & Hv3).
  assert (Hp1 : Contains pair "&" = false).
  { unfold pair. rewrite Contains_append. cbn [Contains]. now rewrite Hk1, Hv1. }
  assert (Hp3 : Contains pair ";" = false).
  { unfold pair. rewrite Contains_append. cbn [Contains]. now rewrite Hk3, Hv3. }
  assert (Hcut : exists rest found, Cut query "&" = (pair, rest, found)).
  { destruct Hq as [->|[rest ->]].
    - exists EmptyString, false. now apply Cut_missing.
    - exists rest, true. now apply Cut_found. }
  assert (Hlen : (String.length query =? 0)%nat = false).
  { destruct Hq as [->|[rest ->]]; [apply length_eqb_0_sep|].
    unfold pair. rewrite string_app_assoc. apply length_eqb_0_sep. }
  destruct Hcut as (rest & found & Hcut).
  split; [|rewrite Hcut; reflexivity].
  cbn [parseQuery]. rewrite Hlen, Hcut, Hp3. cbn [fst snd].
  unfold pair at 1. rewrite length_eqb_0_sep.
  unfold pair. rewrite (Cut_found _ _ _ Hk2).
  now rewrite !QueryUnescape_QueryEscape.
Qed.

Lemma ParseQuery_cacheKey (t : Z) (name : string) :
  ParseQuery (cacheKey t name) =
    ([("path"%string, [name]); ("t"%string, [FormatInt t])], None).
Proof.
  rewrite cacheKey_shape. unfold ParseQuery.
  set (E1 := QueryEscape name). set (E2 := QueryEscape (FormatInt t)).
  set (p1 := (QueryEscape "path" ++ String "=" E1)%string).
  set (p2 := (QueryEscape "t" ++ String "=" E2)%string).
  assert (Hq : ("path=" ++ E1 ++ String "&" ("t=" ++ E2))%string
               = (p1 ++ String "&" p2)%string).
  { unfold p1, p2. change (QueryEscape "path") with "path"%string.
    change (QueryEscape "t") with "t"%string. reflexivity. }
  rewrite Hq.
  assert (Hfuel : exists k, String.length (p1 ++ String "&" p2)%string = S (S k)).
  { unfold p1. change (QueryEscape "path") with "path"%string. simpl. eexists. reflexivity. }
  destruct Hfuel as [k ->].
  destruct (parseQuery_pair (S k) [] "path" name None (p1 ++ String "&" p2)%string)
    as [H1 _]; [right; now exists p2|].
  rewrite H1. clear H1.
  assert (Hc : Cut (p1 ++ String "&" p2)%string "&" = (p1, p2, true)).
  { apply Cut_found. unfold p1, E1. rewrite Contains_append. cbn [Contains].
    destruct (QueryEscape_no_separator name) as (-> & _).
    change (QueryEscape "path") with "path"%string. reflexivity. }
  rewrite Hc. cbn [fst snd].
  destruct (parseQuery_pair k (Values_append [] "path" name) "t" (FormatInt t) None p2)
    as [H2 _]; [now left|].
  rewrite H2. clear H2.
  assert (Hc2 : Cut p2 "&" = (p2, EmptyString, false)).
  { apply Cut_missing. unfold p2, E2. rewrite Contains_append. cbn [Contains].
    destruct (QueryEscape_no_separator (FormatInt t)) as (-> & _).
    change (QueryEscape "t") with "t"%string. reflexivity. }
  rewrite Hc2. cbn [fst snd]. rewrite parseQuery_empty. reflexivity.
Qed.

Lemma FormatInt_inj (t1 t2 : Z) : FormatInt t1 = FormatInt t2 -> t1 = t2.
Proof.
  unfold FormatInt. intros H.
  apply (f_equal NilZero.int_of_string) in H.
  assert (Hnn : forall z, Z.to_int z <> Decimal.Pos Decimal.Nil /\
                          Z.to_int z <> Decimal.Neg Decimal.Nil).
  { intros [|p|p]; simpl; split; try discriminate;
      intros [= E]; revert E; apply DecimalPos.Unsigned.to_uint_nonnil. }
  rewrite !NilZero.isi in H by apply Hnn.
  apply DecimalZ.to_int_inj. congruence.
Qed.

(** C6. The key [Open] builds from a bucket and a path parses without
    error in the getter, [q.Get("path")] is the original path for every
    string (whatever bytes it contains), so the getter loads exactly that
    path; and the key determines both the path and the bucket. *)
Theorem cacheKey_reversible (t : Z) (name : string) :
  (exists q, ParseQuery (cacheKey t name) = (q, None) /\
             Values_Get q "path" = name /\ Values_Get q "t" = FormatInt t) /\
  (forall g innerFS noStat,
      getter g innerFS noStat (cacheKey t name) = load g innerFS noStat name) /\
  (forall t' name', cacheKey t name = cacheKey t' name' -> name = name' /\ t = t').
Proof.
  split; [|split].
  - eexists. split; [apply ParseQuery_cacheKey|]. split; reflexivity.
  - intros g innerFS noStat. unfold getter. rewrite ParseQuery_cacheKey. reflexivity.
  - intros t' name' H. apply (f_equal ParseQuery) in H.
    rewrite !ParseQuery_cacheKey in H. inversion H as [[Hn Ht]].
    split; [reflexivity|]. now apply FormatInt_inj.
Qed.

(** ** Binary64 rounding *)

Lemma digits2_pos_log2 (p : positive) :
  Zpos (digits2_pos p) = Z.log2 (Zpos p) + 1.
Proof.
  assert (H : forall q, digits2_pos q = Pos.size q).
  { induction q; simpl; congruence. }
  destruct p; simpl; rewrite ?H; lia.
Qed.

(** A positive mantissa lies between the powers of two its digit count
    names. *)
Lemma digits2_bounds (p : positive) :
  2 ^ (Zpos (digits2_pos p) - 1) <= Zpos p < 2 ^ Zpos (digits2_pos p).
Proof.
  rewrite digits2_pos_log2.
  pose proof (Z.log2_spec (Zpos p) eq_refl) as H.
  replace (Z.log2 (Zpos p) + 1 - 1) with (Z.log2 (Zpos p)) by lia.
  replace (Z.log2 (Zpos p) + 1) with (Z.succ (Z.log2 (Zpos p))) by lia.
  exact H.
Qed.

Lemma digits2_unique (p : positive) (k : Z) :
  2 ^ (k - 1) <= Zpos p < 2 ^ k -> Zpos (digits2_pos p) = k.
Proof.
  intros H. rewrite digits2_pos_log2.
  assert (0 < k).
  { destruct (Z.le_gt_cases k 0) as [Hk|Hk]; [|lia].
    destruct (Z.eq_dec k 0) as [->|]; [simpl in H; lia|].
    rewrite (Z.pow_neg_r 2 k) in H by lia. lia. }
  assert (Z.log2 (Zpos p) = k - 1); [|lia].
  apply Z.log2_unique; [lia|]. replace (Z.succ (k - 1)) with k by lia. exact H.
Qed.

Lemma iter_pos_nat {A : Type} (f : A -> A) (p : positive) :
  forall x, SpecFloat.iter_pos f p x = Nat.iter (Pos.to_nat p) f x.
Proof.
  induction p as [p IH|p IH|]; intros x; cbn [SpecFloat.iter_pos].
  - rewrite !IH, Pos2Nat.inj_xI.
    replace (2 * Pos.to_nat p)%nat with (Pos.to_nat p + Pos.to_nat p)%nat by lia.
    rewrite Nat.iter_succ_r, Nat.iter_add. reflexivity.
  - rewrite !IH, Pos2Nat.inj_xO.
    replace (2 * Pos.to_nat p)%nat with (Pos.to_nat p + Pos.to_nat p)%nat by lia.
    rewrite Nat.iter_add. reflexivity.
  - reflexivity.
Qed.

Lemma shr_1_spec (m : Z) (r s : bool) :
  0 <= m ->
  shr_1 (Build_shr_record m r s) = Build_shr_record (m / 2) (Z.odd m) (r || s).
Proof.
  intros Hm. rewrite <- Z.div2_div.
  destruct m as [|[p|p|]|p]; try reflexivity. lia.
Qed.

(** Shifting right by [k+1] places keeps the quotient, the last bit
    shifted out and whether any earlier bit was set. *)
Lemma shr_iter_spec (m : Z) (k : nat) :
  0 <= m ->
  Nat.iter (S k) shr_1 (Build_shr_record m false false) =
    Build_shr_record (m / 2 ^ Z.of_nat (S k))
                     (Z.odd (m / 2 ^ Z.of_nat k))
                     (negb (m mod 2 ^ Z.of_nat k =? 0)).
Proof.
  intros Hm. induction k as [|k IH].
  - rewrite Nat.iter_succ. cbn [Nat.iter nat_rect]. rewrite shr_1_spec by assumption.
    change (2 ^ Z.of_nat 1) with 2. change (2 ^ Z.of_nat 0) with 1.
    rewrite Z.div_1_r, Z.mod_1_r. reflexivity.
  - rewrite Nat.iter_succ, IH.
    assert (Hp : 0 < 2 ^ Z.of_nat k) by (apply Z.pow_pos_nonneg; lia).
    assert (Hp1 : 2 ^ Z.of_nat (S k) = 2 ^ Z.of_nat k * 2).
    { rewrite Nat2Z.inj_succ, Z.pow_succ_r by lia. lia. }
    assert (Hp2 : 2 ^ Z.of_nat (S (S k)) = 2 ^ Z.of_nat (S k) * 2).
    { rewrite (Nat2Z.inj_succ (S k)), Z.pow_succ_r by lia. lia. }
    rewrite shr_1_spec by (apply Z.div_pos; lia).
    rewrite Hp2, <- Z.div_div by lia. f_equal.
    rewrite Hp1. rewrite Z.rem_mul_r by lia.
    pose proof (Z.mod_pos_bound m (2 ^ Z.of_nat k) Hp) as Hb.
    set (q := m / 2 ^ Z.of_nat k) in *. set (lo := m mod 2 ^ Z.of_nat k) in *.
    rewrite (Zmod_odd q). destruct (Z.odd q); simpl.
    + symmetry. apply negb_true_iff, Z.eqb_neq. lia.
    + rewrite Z.mul_0_r, Z.add_0_r. reflexivity.
Qed.

(** Rounding to nearest even after a right shift by [n] places is off
    by at most half a unit of the last place kept. *)
Lemma round_shr (m : Z) (n : positive) :
  0 <= m ->
  let mrs := SpecFloat.iter_pos shr_1 n (Build_shr_record m false false) in
  let q' := round_nearest_even (shr_m mrs) (loc_of_shr_record mrs) in
  m / 2 ^ Zpos n <= q' <= m / 2 ^ Zpos n + 1 /\
  2 * Z.abs (q' * 2 ^ Zpos n - m) <= 2 ^ Zpos n.
Proof.
  intros Hm. rewrite iter_pos_nat.
  destruct (Pos.to_nat n) as [|k] eqn:Hk; [lia|].
  rewrite shr_iter_spec by assumption. cbn zeta.
  assert (Hn : Zpos n = Z.of_nat (S k)) by lia. rewrite Hn.
  set (H := 2 ^ Z.of_nat k).
  assert (HH : 0 < H) by (apply Z.pow_pos_nonneg; lia).
  assert (HN : 2 ^ Z.of_nat (S k) = H * 2).
  { rewrite Nat2Z.inj_succ, Z.pow_succ_r by lia. unfold H. lia. }
  rewrite HN. rewrite <- Z.div_div by lia.
  pose proof (Z.div_mod m H ltac:(lia)) as Hdm.
  pose proof (Z.mod_pos_bound m H HH) as Hlo.
  pose proof (Z.div_mod (m / H) 2 ltac:(lia)) as Hdq.
  rewrite (Zmod_odd (m / H)) in Hdq.
  set (q := m / H / 2) in *. set (lo := m mod H) in *. set (mh := m / H) in *.
  cbn [shr_m loc_of_shr_record]. revert Hdq.
  destruct (Z.odd mh); destruct (lo =? 0) eqn:El; cbn [negb round_nearest_even];
    intros Hdq; first [apply Z.eqb_eq in El | apply Z.eqb_neq in El];
    try (destruct (Z.even q)); rewrite Hdq in Hdm;
    (split; [lia|]);
    match goal with
    | |- context [Z.abs ?x] => destruct (Z.abs_spec x) as [[? ->]|[? ->]]
    end; nia.
Qed.

Lemma fexp_normal (x : Z) : -1074 <= x - 53 -> fexp prec emax x = x - 53.
Proof. unfold fexp, emin, prec, emax. lia. Qed.

(** A mantissa of exactly 53 digits is left alone. *)
Lemma binary_round_aux_exact (s : bool) (m : positive) (e : Z) :
  Zpos (digits2_pos m) = 53 -> -1074 <= e <= 971 ->
  binary_round_aux prec emax s (Zpos m) e loc_Exact = S754_finite s m e.
Proof.
  intros Hd He. unfold binary_round_aux.
  assert (Hs : shr_fexp prec emax (Zpos m) e loc_Exact =
               (Build_shr_record (Zpos m) false false, e)).
  { unfold shr_fexp. cbn [Zdigits2]. rewrite Hd, fexp_normal by lia.
    replace (53 + e - 53 - e) with 0 by lia. reflexivity. }
  rewrite Hs. cbn [shr_m loc_of_shr_record round_nearest_even]. rewrite Hs.
  cbn [shr_m]. unfold emax, prec.
  destruct (e <=? 1024 - 53) eqn:E; [reflexivity|lia].
Qed.

(** Rounding a mantissa of at least 53 digits: the result is a normal
    number at most half a unit in the last place away. *)
Lemma binary_round_aux_spec (s : bool) (m : positive) (e : Z) :
  let dg := Zpos (digits2_pos m) in
  53 <= dg -> -1074 <= e + dg - 53 -> e + dg - 52 <= 971 ->
  exists m' e',
    binary_round_aux prec emax s (Zpos m) e loc_Exact = S754_finite s m' e' /\
    Zpos (digits2_pos m') = 53 /\
    e + dg - 53 <= e' <= e + dg - 52 /\
    2 * Z.abs (Zpos m' * 2 ^ (e' - e) - Zpos m) <= 2 ^ (dg - 53).
Proof.
  intros dg Hdg Hlo Hhi.
  destruct (Z.eq_dec dg 53) as [E53|N53].
  - exists m, e. rewrite binary_round_aux_exact by (unfold dg in *; lia).
    unfold dg in *. rewrite E53. replace (e - e) with 0 by lia.
    repeat split; try lia.
  - pose proof (digits2_bounds m) as Hb. fold dg in Hb.
    destruct (dg - 53) as [|n|n] eqn:Hn; try lia.
    assert (Hs : shr_fexp prec emax (Zpos m) e loc_Exact =
                 (SpecFloat.iter_pos shr_1 n (Build_shr_record (Zpos m) false false), e + Zpos n)).
    { unfold shr_fexp. cbn [Zdigits2]. fold dg. rewrite fexp_normal by lia.
      replace (dg + e - 53 - e) with (Zpos n) by lia. reflexivity. }
    unfold binary_round_aux. rewrite Hs.
    pose proof (round_shr (Zpos m) n ltac:(lia)) as Hr. cbn zeta in Hr.
    set (mrs := SpecFloat.iter_pos shr_1 n (Build_shr_record (Zpos m) false false)) in *.
    set (q' := round_nearest_even (shr_m mrs) (loc_of_shr_record mrs)) in *.
    destruct Hr as (Hq & Herr).
    assert (HN : 0 < 2 ^ Zpos n) by (apply Z.pow_pos_nonneg; lia).
    assert (Hq52 : 2 ^ 52 <= Zpos m / 2 ^ Zpos n < 2 ^ 53).
    { replace (dg - 1) with (52 + Zpos n) in Hb by lia.
      replace dg with (53 + Zpos n) in Hb by lia.
      rewrite !Z.pow_add_r in Hb by lia. split.
      - apply Z.div_le_lower_bound; lia.
      - apply Z.div_lt_upper_bound; lia. }
    destruct (Z.eq_dec q' (2 ^ 53)) as [Ecarry|Ncarry].
    + exists (Z.to_pos (2 ^ 52)), (e + Zpos n + 1).
      rewrite Ecarry. split; [|split; [reflexivity|split; [lia|]]].
      * change (shr_fexp prec emax (2 ^ 53) (e + Zpos n) loc_Exact) with
          (shr (Build_shr_record (2 ^ 53) false false) (e + Zpos n)
               (fexp prec emax (54 + (e + Zpos n)) - (e + Zpos n))).
        rewrite fexp_normal by lia.
        replace (54 + (e + Zpos n) - 53 - (e + Zpos n)) with 1 by lia.
        cbn [shr SpecFloat.iter_pos]. change (shr_m (shr_1 _)) with (2 ^ 52).
        change (2 ^ 52) with (Zpos (Z.to_pos (2 ^ 52))) at 1. cbv iota.
        unfold emax, prec. destruct (e + Zpos n + 1 <=? 1024 - 53) eqn:E; [reflexivity|lia].
      * replace (e + Zpos n + 1 - e) with (Zpos n + 1) by lia.
        rewrite Z.pow_add_r by lia. rewrite Ecarry in Herr.
        change (Zpos (Z.to_pos (2 ^ 52)) * (2 ^ Zpos n * 2 ^ 1))
          with (2 ^ 52 * (2 ^ Zpos n * 2)).
        replace (2 ^ 52 * (2 ^ Zpos n * 2)) with (2 ^ 53 * 2 ^ Zpos n)
          by (change (2 ^ 53) with (2 ^ 52 * 2); lia).
        exact Herr.
    + assert (Hq' : 2 ^ 52 <= q' < 2 ^ 53) by lia.
      destruct q' as [|pq|pq] eqn:Epq; try (change (2 ^ 52) with 4503599627370496 in Hq'; lia).
      assert (Hdq : Zpos (digits2_pos pq) = 53) by (apply digits2_unique; exact Hq').
      exists pq, (e + Zpos n). split; [|split; [exact Hdq|split; [lia|]]].
      * assert (Hs2 : shr_fexp prec emax (Zpos pq) (e + Zpos n) loc_Exact =
                      (Build_shr_record (Zpos pq) false false, e + Zpos n)).
        { unfold shr_fexp. cbn [Zdigits2]. rewrite Hdq, fexp_normal by lia.
          replace (53 + (e + Zpos n) - 53 - (e + Zpos n)) with 0 by lia. reflexivity. }
        rewrite Hs2. cbn [shr_m]. unfold emax, prec.
        destruct (e + Zpos n <=? 1024 - 53) eqn:E; [reflexivity|lia].
      * replace (e + Zpos n - e) with (Zpos n) by lia. exact Herr.
Qed.

Lemma IZR_pow2 (k : Z) : 0 <= k -> IZR (2 ^ k) = powerRZ 2 k.
Proof.
  intros Hk. destruct k as [|p|p]; try lia.
  - simpl. reflexivity.
  - change (2 ^ Zpos p) with (Z.pow_pos 2 p). apply Zpower_pos_powerRZ.
Qed.

Lemma powerRZ2_pos (e : Z) : (0 < powerRZ 2 e)%R.
Proof. apply powerRZ_lt. lra. Qed.

Lemma F2R_pos (m : positive) (e : Z) : (0 < F2R (Zpos m) e)%R.
Proof.
  unfold F2R. apply Rmult_lt_0_compat; [|apply powerRZ2_pos].
  apply IZR_lt. lia.
Qed.

Lemma F2R_scale (m e k : Z) : 0 <= k -> F2R (m * 2 ^ k) e = F2R m (e + k).
Proof.
  intros Hk. unfold F2R. rewrite mult_IZR, IZR_pow2 by assumption.
  rewrite powerRZ_add by lra. ring.
Qed.

Lemma F2R_shift (m e k : Z) : (F2R m (e + k) = F2R m e * powerRZ 2 k)%R.
Proof. unfold F2R. rewrite powerRZ_add by lra. ring. Qed.

(** Rounding to binary64 has relative error at most [u53]. *)
Lemma binary_round_aux_R (s : bool) (m : positive) (e : Z) :
  let dg := Zpos (digits2_pos m) in
  53 <= dg -> -1074 <= e + dg - 53 -> e + dg - 52 <= 971 ->
  exists m' e',
    binary_round_aux prec emax s (Zpos m) e loc_Exact = S754_finite s m' e' /\
    Zpos (digits2_pos m') = 53 /\
    e + dg - 53 <= e' <= e + dg - 52 /\
    (F2R (Zpos m) e * (1 - u53) <= F2R (Zpos m') e' <= F2R (Zpos m) e * (1 + u53))%R.
Proof.
  intros dg Hdg Hlo Hhi.
  destruct (binary_round_aux_spec s m e Hdg Hlo Hhi) as (m' & e' & Hbra & Hd' & He' & Herr).
  fold dg in He', Herr.
  exists m', e'. repeat split; try assumption; try lia.
  all: pose proof (digits2_bounds m) as Hb; fold dg in Hb.
  all: assert (Hpow : 2 ^ 53 * 2 ^ (dg - 53) = 2 * 2 ^ (dg - 1))
    by (rewrite <- Z.pow_add_r by lia; rewrite <- Z.pow_succ_r by lia; f_equal; lia).
  all: set (x := Zpos m' * 2 ^ (e' - e)) in *.
  all: assert (Hrel : 0 <= 2 ^ 53 * (x - Zpos m) + Zpos m /\
                      2 ^ 53 * (x - Zpos m) <= Zpos m) by nia.
  all: destruct Hrel as [Hr1 Hr2]; apply IZR_le in Hr1, Hr2.
  all: rewrite plus_IZR, mult_IZR, minus_IZR in Hr1.
  all: rewrite mult_IZR, minus_IZR in Hr2.
  all: change (IZR (2 ^ 53)) with 9007199254740992%R in Hr1, Hr2.
  all: replace e' with (e + (e' - e)) by lia.
  all: rewrite <- F2R_scale by lia; fold x.
  all: unfold F2R, u53; pose proof (powerRZ2_pos e) as HP.
  all: set (P := powerRZ 2 e) in *; set (X := IZR x) in *; set (M := IZR (Zpos m)) in *.
  - replace (M * P * (1 - / 9007199254740992))%R
      with ((M * (1 - / 9007199254740992)) * P)%R by ring.
    apply Rmult_le_compat_r; lra.
  - replace (M * P * (1 + / 9007199254740992))%R
      with ((M * (1 + / 9007199254740992)) * P)%R by ring.
    apply Rmult_le_compat_r; lra.
Qed.

Lemma iter_xO (p d : positive) : Zpos (Pos.iter xO p d) = Zpos p * 2 ^ Zpos d.
Proof.
  induction d as [|d IH] using Pos.peano_ind.
  - simpl. lia.
  - rewrite Pos.iter_succ, Pos2Z.inj_xO, IH, Pos2Z.inj_succ, Z.pow_succ_r by lia. lia.
Qed.

(** [float64(z)] for a non-zero integer of at most 64 bits: a normal
    number with the sign of [z], within [u53] of [|z|]. *)
Lemma binary_round_int (s : bool) (p : positive) :
  Zpos (digits2_pos p) <= 64 ->
  exists m e,
    binary_round prec emax s p 0 = S754_finite s m e /\
    Zpos (digits2_pos m) = 53 /\ -52 <= e <= 12 /\
    (IZR (Zpos p) * (1 - u53) <= F2R (Zpos m) e <= IZR (Zpos p) * (1 + u53))%R.
Proof.
  intros H64. unfold binary_round. set (dg := Zpos (digits2_pos p)) in *.
  assert (Hdg : 1 <= dg) by (unfold dg; lia).
  rewrite Z.add_0_r. rewrite fexp_normal by lia.
  assert (HF : F2R (Zpos p) 0 = IZR (Zpos p)) by (unfold F2R; simpl; ring).
  unfold shl_align. destruct (dg - 53 - 0) as [|n|n] eqn:Hn.
  - destruct (binary_round_aux_R s p 0) as (m & e & H1 & H2 & H3 & H4); fold dg; try lia.
    exists m, e. rewrite HF in H4. fold dg in H3. destruct H4 as [H4 H5].
    repeat split; try assumption; lia.
  - destruct (binary_round_aux_R s p 0) as (m & e & H1 & H2 & H3 & H4); fold dg; try lia.
    exists m, e. rewrite HF in H4. fold dg in H3. destruct H4 as [H4 H5].
    repeat split; try assumption; lia.
  - assert (Hd : Zpos (digits2_pos (Pos.iter xO p n)) = 53).
    { apply digits2_unique. rewrite iter_xO. pose proof (digits2_bounds p) as Hb.
      fold dg in Hb. replace 53 with (dg + Zpos n) at 2 by lia.
      replace (53 - 1) with (dg - 1 + Zpos n) by lia.
      rewrite !Z.pow_add_r by lia.
      assert (0 < 2 ^ Zpos n) by (apply Z.pow_pos_nonneg; lia). nia. }
    exists (Pos.iter xO p n), (dg - 53).
    rewrite binary_round_aux_exact by (assumption || lia).
    repeat split; try assumption; try lia.
    all: rewrite iter_xO, F2R_scale by lia.
    all: replace (dg - 53 + Zpos n) with 0 by lia; rewrite HF.
    all: assert (0 < IZR (Zpos p))%R by (apply IZR_lt; lia).
    all: unfold u53; nra.
Qed.

Lemma float64_of_int_spec (z : Z) :
  z <> 0 -> - 2 ^ 64 < z < 2 ^ 64 ->
  exists m e,
    float64_of_int z = S754_finite (z <? 0) m e /\
    Zpos (digits2_pos m) = 53 /\ -52 <= e <= 12 /\
    (IZR (Z.abs z) * (1 - u53) <= F2R (Zpos m) e <= IZR (Z.abs z) * (1 + u53))%R.
Proof.
  intros Hz Hr. unfold float64_of_int, binary_normalize.
  destruct z as [|p|p]; [congruence| |].
  - apply binary_round_int. pose proof (digits2_bounds p) as Hb.
    destruct (Z.le_gt_cases (Zpos (digits2_pos p)) 64) as [|Hgt]; [assumption|].
    assert (2 ^ 64 <= 2 ^ (Zpos (digits2_pos p) - 1)) by (apply Z.pow_le_mono_r; lia). lia.
  - apply binary_round_int. pose proof (digits2_bounds p) as Hb.
    destruct (Z.le_gt_cases (Zpos (digits2_pos p)) 64) as [|Hgt]; [assumption|].
    assert (2 ^ 64 <= 2 ^ (Zpos (digits2_pos p) - 1)) by (apply Z.pow_le_mono_r; lia). lia.
Qed.

(** The product of two normal numbers of moderate exponent. *)
Lemma float64_mul_spec (s1 s2 : bool) (m1 m2 : positive) (e1 e2 : Z) :
  Zpos (digits2_pos m1) = 53 -> Zpos (digits2_pos m2) = 53 ->
  -52 <= e1 <= 12 -> -52 <= e2 <= 12 ->
  exists m e,
    float64_mul (S754_finite s1 m1 e1) (S754_finite s2 m2 e2) =
      S754_finite (xorb s1 s2) m e /\
    Zpos (digits2_pos m) = 53 /\ e1 + e2 + 52 <= e <= e1 + e2 + 54 /\
    (F2R (Zpos m1) e1 * F2R (Zpos m2) e2 * (1 - u53) <= F2R (Zpos m) e
     <= F2R (Zpos m1) e1 * F2R (Zpos m2) e2 * (1 + u53))%R.
Proof.
  intros Hd1 Hd2 He1 He2. unfold float64_mul, SFmul.
  pose proof (digits2_bounds m1) as Hb1. pose proof (digits2_bounds m2) as Hb2.
  rewrite Hd1 in Hb1. rewrite Hd2 in Hb2.
  pose proof (digits2_bounds (m1 * m2)) as Hb. set (dg := Zpos (digits2_pos (m1 * m2))) in *.
  assert (Hprod : 2 ^ 104 <= Zpos (m1 * m2) < 2 ^ 106).
  { rewrite Pos2Z.inj_mul. change (2 ^ 104) with (2 ^ 52 * 2 ^ 52).
    change (2 ^ 106) with (2 ^ 53 * 2 ^ 53). change (53 - 1) with 52 in *. nia. }
  assert (Hdg : 105 <= dg <= 106).
  { split.
    - destruct (Z.le_gt_cases 105 dg) as [|Hlt]; [assumption|].
      assert (2 ^ dg <= 2 ^ 104) by (apply Z.pow_le_mono_r; lia). lia.
    - destruct (Z.le_gt_cases dg 106) as [|Hgt]; [assumption|].
      assert (2 ^ 106 <= 2 ^ (dg - 1)) by (apply Z.pow_le_mono_r; lia). lia. }
  destruct (binary_round_aux_R (xorb s1 s2) (m1 * m2) (e1 + e2))
    as (m & e & H1 & H2 & H3 & H4); fold dg; try lia.
  exists m, e. fold dg in H3.
  assert (HF : F2R (Zpos (m1 * m2)) (e1 + e2) = (F2R (Zpos m1) e1 * F2R (Zpos m2) e2)%R).
  { unfold F2R. rewrite Pos2Z.inj_mul, mult_IZR, powerRZ_add by lra. ring. }
  rewrite HF in H4. destruct H4 as [H4 H5]. repeat split; try assumption; lia.
Qed.

(** Dividing a normal number by a power of two only moves the
    exponent. *)
Lemma float64_div_pow2 (s : bool) (m : positive) (e ey : Z) :
  Zpos (digits2_pos m) = 53 ->
  -1074 <= e - ey - 53 -> e - ey - 51 <= 971 ->
  float64_div (S754_finite s m e) (S754_finite false 4503599627370496 ey) =
    S754_finite s m (e - ey - 52).
Proof.
  intros Hd Hlo Hhi. unfold float64_div, SFdiv, SFdiv_core_binary.
  cbn [Zdigits2]. rewrite Hd.
  change (Zpos (digits2_pos 4503599627370496)) with 53.
  replace (53 + e - (53 + ey)) with (e - ey) by lia.
  rewrite fexp_normal by lia. rewrite Z.min_l by lia.
  replace (e - ey - (e - ey - 53)) with 53 by lia.
  rewrite Z.shiftl_mul_pow2 by lia.
  assert (Hq : Z.div_eucl (Zpos m * 2 ^ 53) 4503599627370496 = (Zpos m~0, 0)).
  { pose proof (Z.div_eucl_eq (Zpos m * 2 ^ 53) 4503599627370496 ltac:(lia)) as Heq.
    pose proof (Z.mod_pos_bound (Zpos m * 2 ^ 53) 4503599627370496 ltac:(lia)) as Hm.
    unfold Z.modulo in Hm.
    destruct (Z.div_eucl (Zpos m * 2 ^ 53) 4503599627370496) as [q r].
    change (2 ^ 53) with (2 * 4503599627370496) in Heq.
    assert (r = 0 /\ q = Zpos m~0) as [-> ->]; [|reflexivity].
    rewrite Pos2Z.inj_xO. nia. }
  rewrite Hq. change (new_location 4503599627370496 0) with loc_Exact.
  rewrite xorb_false_r.
  destruct (binary_round_aux_spec s (m~0) (e - ey - 53)) as (m' & e' & H1 & H2 & H3 & H4).
  - cbn [digits2_pos]. rewrite Pos2Z.inj_succ, Hd. lia.
  - cbn [digits2_pos]. rewrite Pos2Z.inj_succ, Hd. lia.
  - cbn [digits2_pos]. rewrite Pos2Z.inj_succ, Hd. lia.
  - cbn [digits2_pos] in H3, H4. rewrite Pos2Z.inj_succ, Hd in H3, H4.
    change (2 ^ (Z.succ 53 - 53)) with 2 in H4.
    pose proof (digits2_bounds m) as Hb. pose proof (digits2_bounds m') as Hb'.
    rewrite Hd in Hb. rewrite H2 in Hb'.
    rewrite Pos2Z.inj_xO in H4. rewrite H1.
    assert (Hcase : e' - (e - ey - 53) = 1 \/ e' - (e - ey - 53) = 2) by lia.
    destruct Hcase as [E|E]; rewrite E in H4.
    + change (2 ^ 1) with 2 in H4. assert (m' = m) by lia. subst m'. f_equal. lia.
    + exfalso. change (2 ^ 2) with 4 in H4. change (2 ^ (53 - 1)) with (2 ^ 52) in *.
      change (2 ^ 53) with (2 * 2 ^ 52) in *. lia.
Qed.

(** Converting a float below [2^63] in magnitude to [int64] drops the
    fraction and keeps the sign. *)
Lemma int64_of_float64_floor (s : bool) (m : positive) (e : Z) :
  (F2R (Zpos m) e < 9223372036854775808)%R ->
  exists a,
    int64_of_float64 (S754_finite s m e) = cond_Zopp s a /\ 0 <= a /\
    (IZR a <= F2R (Zpos m) e < IZR a + 1)%R.
Proof.
  intros Hlt. unfold int64_of_float64.
  set (a := if 0 <=? e then Zpos m * 2 ^ e else Zpos m / 2 ^ (- e)).
  assert (Ha : 0 <= a /\ (IZR a <= F2R (Zpos m) e < IZR a + 1)%R).
  { unfold a. destruct (0 <=? e) eqn:E.
    - apply Z.leb_le in E. split; [apply Z.mul_nonneg_nonneg; [lia|apply Z.pow_nonneg; lia]|].
      assert (HF : F2R (Zpos m) e = IZR (Zpos m * 2 ^ e)).
      { rewrite <- (Z.add_0_l e) at 1. rewrite <- F2R_scale by assumption.
        unfold F2R. simpl. ring. }
      rewrite HF. lra.
    - apply Z.leb_gt in E. set (k := - e). assert (Hk : 0 < k) by (unfold k; lia).
      assert (HP : 0 < 2 ^ k) by (apply Z.pow_pos_nonneg; lia).
      pose proof (Z.div_mod (Zpos m) (2 ^ k) ltac:(lia)) as Hdm.
      pose proof (Z.mod_pos_bound (Zpos m) (2 ^ k) HP) as Hr.
      split; [apply Z.div_pos; lia|].
      assert (HF : (F2R (Zpos m) e * IZR (2 ^ k) =
                    IZR (2 ^ k * (Zpos m / 2 ^ k) + Zpos m mod 2 ^ k))%R).
      { rewrite <- Hdm. rewrite IZR_pow2 by lia. rewrite <- F2R_shift.
        replace (e + k) with 0 by (unfold k; lia). unfold F2R. simpl. ring. }
      set (q := Zpos m / 2 ^ k) in *. set (r := Zpos m mod 2 ^ k) in *.
      rewrite plus_IZR, mult_IZR in HF.
      destruct Hr as [Hr1 Hr2]. apply IZR_le in Hr1. apply IZR_lt in Hr2.
      apply IZR_lt in HP.
      set (F := F2R (Zpos m) e) in *. set (P := IZR (2 ^ k)) in *.
      set (Q := IZR q) in *. set (Rr := IZR r) in *.
      assert (HE : ((F - Q) * P = Rr)%R) by lra.
      split.
      + assert (0 <= F - Q)%R; [|lra].
        destruct (Rle_lt_dec 0 (F - Q)) as [|Hneg]; [assumption|].
        assert (0 < (Q - F) * P)%R by (apply Rmult_lt_0_compat; lra). lra.
      + assert (F - Q < 1)%R; [|lra].
        destruct (Rlt_le_dec (F - Q) 1) as [|Hge]; [assumption|].
        assert (1 * P <= (F - Q) * P)%R by (apply Rmult_le_compat_r; lra). lra. }
  destruct Ha as (Ha0 & Ha1 & Ha2).
  assert (Hmax : a < 2 ^ 63).
  { apply lt_IZR. change (IZR (2 ^ 63)) with 9223372036854775808%R. lra. }
  exists a. split; [|split; [assumption|split; assumption]].
  fold a. unfold min_int64, max_int64.
  destruct s; cbn [cond_Zopp].
  - destruct ((- 2 ^ 63 <=? - a) && (- a <=? 2 ^ 63 - 1)) eqn:E; [reflexivity|].
    apply andb_false_iff in E. destruct E as [E|E]; [apply Z.leb_gt in E|apply Z.leb_gt in E]; lia.
  - destruct ((- 2 ^ 63 <=? a) && (a <=? 2 ^ 63 - 1)) eqn:E; [reflexivity|].
    apply andb_false_iff in E. destruct E as [E|E]; [apply Z.leb_gt in E|apply Z.leb_gt in E]; lia.
Qed.

Lemma Rmult_enclosure (a1 f1 b1 a2 f2 b2 : R) :
  (0 <= a1 <= f1)%R -> (f1 <= b1)%R -> (0 <= a2 <= f2)%R -> (f2 <= b2)%R ->
  (a1 * a2 <= f1 * f2 <= b1 * b2)%R.
Proof.
  intros [H1 H2] H3 [H4 H5] H6. split.
  - apply Rmult_le_compat; lra.
  - apply Rmult_le_compat; lra.
Qed.

(** The offset computed by [quantizeOffset]: its sign is that of [d],
    and its magnitude is the integer part of a real within three
    roundings of [sum * |d| / 2^34]. *)
Lemma quantizeOffset_enclosure (sum d : Z) :
  0 <= sum < 2 ^ 32 -> d <> 0 -> - 2 ^ 63 <= d <= 2 ^ 63 ->
  exists (a : Z) (x : R),
    quantizeOffset sum d = cond_Zopp (d <? 0) a /\ 0 <= a /\
    (IZR a <= x < IZR a + 1)%R /\
    (IZR sum * (1 - u53) * (IZR (Z.abs d) * (1 - u53)) * (1 - u53)
       <= x * 17179869184
       <= IZR sum * (1 + u53) * (IZR (Z.abs d) * (1 + u53)) * (1 + u53))%R.
Proof.
  intros Hs Hd Hdr. unfold quantizeOffset.
  change (float64_of_int (Z.shiftl 2 31)) with (S754_finite false 4503599627370496 (-20)).
  change (float64_of_int 4) with (S754_finite false 4503599627370496 (-50)).
  destruct (float64_of_int_spec d Hd ltac:(lia)) as (m2 & e2 & Hx2 & Hd2 & He2 & HF2).
  rewrite Hx2.
  destruct (Z.eq_dec sum 0) as [->|Hsum].
  - exists 0, 0%R. cbn. destruct (d <? 0); cbn.
    all: repeat split; try lia; try lra.
  - destruct (float64_of_int_spec sum Hsum ltac:(lia)) as (m1 & e1 & Hx1 & Hd1 & He1 & HF1).
    replace (sum <? 0) with false in Hx1 by (symmetry; apply Z.ltb_ge; lia).
    rewrite Hx1. rewrite (Z.abs_eq sum) in HF1 by lia.
    destruct (float64_mul_spec false (d <? 0) m1 m2 e1 e2 Hd1 Hd2 He1 He2)
      as (m3 & e3 & Hx3 & Hd3 & He3 & HF3).
    rewrite Hx3. cbn [xorb].
    rewrite float64_div_pow2 by (assumption || lia).
    rewrite float64_div_pow2 by (assumption || lia).
    replace (e3 - -20 - 52 - -50 - 52) with (e3 - 34) by lia.
    assert (HS : (1 <= IZR sum <= 4294967295)%R).
    { split; apply IZR_le; lia. }
    assert (HD : (1 <= IZR (Z.abs d) <= 9223372036854775808)%R).
    { split; apply IZR_le; lia. }
    set (S := IZR sum) in *. set (D := IZR (Z.abs d)) in *.
    set (F1 := F2R (Zpos m1) e1) in *. set (F2 := F2R (Zpos m2) e2) in *.
    set (F3 := F2R (Zpos m3) e3) in *.
    assert (Hu : (0 < u53 < 1 / 1000000)%R) by (unfold u53; lra).
    assert (H12 : (S * (1 - u53) * (D * (1 - u53)) <= F1 * F2
                   <= S * (1 + u53) * (D * (1 + u53)))%R).
    { apply Rmult_enclosure; try lra; split; try lra; nra. }
    assert (H3 : (S * (1 - u53) * (D * (1 - u53)) * (1 - u53) <= F3
                  <= S * (1 + u53) * (D * (1 + u53)) * (1 + u53))%R).
    { destruct HF3 as [HF3a HF3b]. destruct H12 as [H12a H12b]. split.
      - apply Rle_trans with (F1 * F2 * (1 - u53))%R; [|assumption].
        apply Rmult_le_compat_r; lra.
      - apply Rle_trans with (F1 * F2 * (1 + u53))%R; [assumption|].
        apply Rmult_le_compat_r; lra. }
    set (x := F2R (Zpos m3) (e3 - 34)).
    assert (Hx : (x * 17179869184 = F3)%R).
    { unfold x, F3. replace e3 with (e3 - 34 + 34) at 2 by lia.
      rewrite F2R_shift. rewrite <- IZR_pow2 by lia. reflexivity. }
    assert (Hxlt : (x < 9223372036854775808)%R).
    { assert (F3 <= 4294967295 * (1 + u53) * (9223372036854775808 * (1 + u53)) * (1 + u53))%R.
      { apply Rle_trans with (S * (1 + u53) * (D * (1 + u53)) * (1 + u53))%R; [lra|].
        apply Rmult_le_compat_r; [lra|].
        apply Rmult_le_compat; try nra. }
      nra. }
    destruct (int64_of_float64_floor (d <? 0) m3 (e3 - 34) Hxlt) as (a & Ha1 & Ha2 & Ha3).
    exists a, x. fold x in Ha3. rewrite Hx. repeat split; try assumption; lra.
Qed.

Lemma enclosure_factor (S D c : R) :
  (S * c * (D * c) * c = S * D * (c * c * c))%R.
Proof. ring. Qed.

(** The offset has the sign of [d] and less than a quarter of its
    magnitude. *)
Lemma quantizeOffset_magnitude (sum d : Z) :
  0 <= sum < 2 ^ 32 -> d <> 0 -> - 2 ^ 63 <= d <= 2 ^ 63 ->
  exists a, quantizeOffset sum d = cond_Zopp (d <? 0) a /\ 0 <= a /\ 4 * a < Z.abs d.
Proof.
  intros Hs Hd Hdr.
  destruct (quantizeOffset_enclosure sum d Hs Hd Hdr) as (a & x & Hq & Ha & Hx & _ & Hhi).
  exists a. split; [assumption|split; [assumption|]].
  apply lt_IZR. rewrite mult_IZR.
  rewrite enclosure_factor in Hhi.
  assert (HS : (0 <= IZR sum <= 4294967295)%R) by (split; apply IZR_le; lia).
  assert (HD : (1 <= IZR (Z.abs d))%R) by (apply IZR_le; lia).
  set (S := IZR sum) in *. set (D := IZR (Z.abs d)) in *.
  set (c := ((1 + u53) * (1 + u53) * (1 + u53))%R) in *.
  assert (Hc : (0 < c /\ 4294967295 * c < 4294967296)%R) by (unfold c, u53; split; lra).
  assert (H1 : (S * D * c <= 4294967295 * D * c)%R).
  { apply Rmult_le_compat_r; [lra|]. apply Rmult_le_compat_r; lra. }
  assert (H2 : (4294967295 * D * c < 4294967296 * D)%R).
  { replace (4294967295 * D * c)%R with ((4294967295 * c) * D)%R by ring.
    apply Rmult_lt_compat_r; lra. }
  lra.
Qed.

(** Checksums far enough apart for the window give different offsets. *)
Lemma quantizeOffset_separation (sum1 sum2 d : Z) :
  0 <= sum1 < 2 ^ 32 -> 0 <= sum2 < 2 ^ 32 -> d <> 0 -> - 2 ^ 63 <= d <= 2 ^ 63 ->
  2 ^ 35 <= (sum2 - sum1) * Z.abs d ->
  quantizeOffset sum1 d <> quantizeOffset sum2 d.
Proof.
  intros Hs1 Hs2 Hd Hdr Hsep.
  destruct (quantizeOffset_enclosure sum1 d Hs1 Hd Hdr) as (a1 & x1 & Hq1 & Ha1 & Hx1 & _ & Hhi1).
  destruct (quantizeOffset_enclosure sum2 d Hs2 Hd Hdr) as (a2 & x2 & Hq2 & Ha2 & Hx2 & Hlo2 & _).
  assert (Hlt : a1 < a2).
  { apply lt_IZR. rewrite enclosure_factor in Hhi1, Hlo2.
    assert (Hdelta : 1 <= sum2 - sum1) by nia.
    assert (HS1 : (0 <= IZR sum1 <= 4294967296)%R) by (split; apply IZR_le; lia).
    assert (HS2 : (0 <= IZR sum2 <= 4294967296)%R) by (split; apply IZR_le; lia).
    assert (HD : (1 <= IZR (Z.abs d))%R) by (apply IZR_le; lia).
    apply IZR_le in Hsep. rewrite mult_IZR, minus_IZR in Hsep.
    change (IZR (2 ^ 35)) with 34359738368%R in Hsep.
    apply IZR_le in Hdelta. rewrite minus_IZR in Hdelta.
    set (S1 := IZR sum1) in *. set (S2 := IZR sum2) in *. set (D := IZR (Z.abs d)) in *.
    assert (Hp1 : (0 <= S1 * D <= 4294967296 * D)%R).
    { split; [apply Rmult_le_pos; lra|apply Rmult_le_compat_r; lra]. }
    assert (Hp2 : (0 <= S2 * D <= 4294967296 * D)%R).
    { split; [apply Rmult_le_pos; lra|apply Rmult_le_compat_r; lra]. }
    assert (Hp12 : (D <= S2 * D - S1 * D)%R).
    { replace (S2 * D - S1 * D)%R with ((S2 - S1) * D)%R by ring.
      rewrite <- (Rmult_1_l D) at 1. apply Rmult_le_compat_r; lra. }
    replace ((S2 - S1) * D)%R with (S2 * D - S1 * D)%R in Hsep by ring.
    set (p1 := (S1 * D)%R) in *. set (p2 := (S2 * D)%R) in *.
    set (cp := ((1 + u53) * (1 + u53) * (1 + u53))%R) in *.
    set (cm := ((1 - u53) * (1 - u53) * (1 - u53))%R) in *.
    assert (Hcp : (cp <= 1 + 1 / 1000000000000000)%R) by (unfold cp, u53; lra).
    assert (Hcm : (1 - 1 / 1000000000000000 <= cm)%R) by (unfold cm, u53; lra).
    assert (H1 : (p1 * cp <= p1 + p1 / 1000000000000000)%R).
    { replace (p1 + p1 / 1000000000000000)%R with (p1 * (1 + 1 / 1000000000000000))%R by field.
      apply Rmult_le_compat_l; lra. }
    assert (H2 : (p2 - p2 / 1000000000000000 <= p2 * cm)%R).
    { replace (p2 - p2 / 1000000000000000)%R with (p2 * (1 - 1 / 1000000000000000))%R by field.
      apply Rmult_le_compat_l; lra. }
    lra. }
  rewrite Hq1, Hq2. destruct (d <? 0); cbn [cond_Zopp]; lia.
Qed.

(** ** The key quantizer *)

Lemma wrap64_small (z : Z) : - 2 ^ 63 <= z < 2 ^ 63 -> wrap64 z = z.
Proof. intros H. unfold wrap64. rewrite Z.mod_small; lia. Qed.

Lemma wrap64_nonzero (z : Z) : z <> 0 -> - 2 ^ 64 < z < 2 ^ 64 -> wrap64 z <> 0.
Proof.
  intros Hz Hr. unfold wrap64. intros H.
  assert (Hm : (z + 2 ^ 63) mod 2 ^ 64 = 2 ^ 63) by lia.
  pose proof (Z.div_mod (z + 2 ^ 63) (2 ^ 64) ltac:(lia)) as Hdm.
  rewrite Hm in Hdm. lia.
Qed.

Lemma adler32_step_range (ab : Z * Z) (x : byte) :
  0 <= fst (adler32_step ab x) < adler32_mod /\
  0 <= snd (adler32_step ab x) < adler32_mod.
Proof.
  destruct ab as [a b]. unfold adler32_step, adler32_mod. simpl.
  split; apply Z.mod_pos_bound; lia.
Qed.

Lemma adler32_Checksum_range (p : list byte) : 0 <= adler32_Checksum p < 2 ^ 32.
Proof.
  unfold adler32_Checksum.
  assert (H : forall ab, (0 <= fst ab < adler32_mod /\ 0 <= snd ab < adler32_mod) ->
              0 <= fst (fold_left adler32_step p ab) < adler32_mod /\
              0 <= snd (fold_left adler32_step p ab) < adler32_mod).
  { induction p as [|x p IH]; intros ab Hab; simpl; [assumption|].
    apply IH. apply adler32_step_range. }
  specialize (H (1, 0) ltac:(unfold adler32_mod; simpl; lia)).
  destruct (fold_left adler32_step p (1, 0)) as [a b]. simpl in H.
  unfold adler32_mod in H. destruct H as [Ha Hb].
  assert (H0 : 0 <= Z.shiftl b 16) by (apply Z.shiftl_nonneg; lia).
  split; [apply Z.lor_nonneg; lia|].
  destruct (Z.eq_dec (Z.lor (Z.shiftl b 16) a) 0) as [->|Hnz]; [lia|].
  apply Z.log2_lt_pow2; [pose proof (Z.lor_nonneg (Z.shiftl b 16) a); lia|].
  rewrite Z.log2_lor by lia.
  assert (Hla : Z.log2 a < 32).
  { destruct (Z.eq_dec a 0) as [->|]; [simpl; lia|]. apply Z.log2_lt_pow2; lia. }
  assert (Hlb : Z.log2 (Z.shiftl b 16) < 32).
  { destruct (Z.eq_dec b 0) as [->|]; [simpl; lia|].
    rewrite Z.shiftl_mul_pow2 by lia. apply Z.log2_lt_pow2; lia. }
  lia.
Qed.

(** Inside [int64], in either direction, the divisor of [quantize] is
    [d] moved away from zero by less than a quarter of its magnitude. *)
Lemma effectivePeriod_spec (d : Z) (s : string) :
  d <> 0 -> min_int64 <= d <= max_int64 ->
  exists a,
    quantizeOffset (adler32_Checksum (list_byte_of_string s)) d = cond_Zopp (d <? 0) a /\
    0 <= a /\ 4 * a < Z.abs d /\
    effectivePeriod d s = wrap64 (d + cond_Zopp (d <? 0) a).
Proof.
  intros Hd Hr. unfold min_int64, max_int64 in Hr.
  destruct (quantizeOffset_magnitude (adler32_Checksum (list_byte_of_string s)) d)
    as (a & Hq & Ha & Hlt); [apply adler32_Checksum_range|assumption|lia|].
  exists a. unfold effectivePeriod. rewrite Hq. repeat split; assumption.
Qed.

(** C10. For a non-zero duration of either sign the offset is smaller
    in magnitude than [d], the divisor of [quantize] is not zero, and
    [quantize] returns. *)
Theorem quantize_divisor_nonzero (t d : Z) (s : string) :
  d <> 0 -> min_int64 <= d <= max_int64 ->
  Z.abs (quantizeOffset (adler32_Checksum (list_byte_of_string s)) d) < Z.abs d /\
  effectivePeriod d s <> 0 /\
  exists q, quantize t d s = Returns q.
Proof.
  intros Hd Hr. destruct (effectivePeriod_spec d s Hd Hr) as (a & Hq & Ha & Hlt & Hp).
  unfold min_int64, max_int64 in Hr.
  assert (Hnz : effectivePeriod d s <> 0).
  { rewrite Hp. apply wrap64_nonzero; destruct (d <? 0) eqn:E; cbn [cond_Zopp];
      try apply Z.ltb_lt in E; try apply Z.ltb_ge in E; lia. }
  split; [|split; [assumption|]].
  - rewrite Hq. destruct (d <? 0); cbn [cond_Zopp]; lia.
  - unfold quantize, int64_div. destruct (d =? 0) eqn:E0; [apply Z.eqb_eq in E0; lia|].
    destruct (effectivePeriod d s =? 0) eqn:E1; [apply Z.eqb_eq in E1; lia|].
    eexists. reflexivity.
Qed.

Lemma quantize_divisor_nonzero_witness :
  effectivePeriod (-10000000000) "a" <> 0 /\
  exists q, quantize 1700000000000000000 (-10000000000) "a" = Returns q.
Proof.
  destruct (quantize_divisor_nonzero 1700000000000000000 (-10000000000) "a")
    as (_ & H1 & H2).
  - lia.
  - unfold min_int64, max_int64. lia.
  - split; assumption.
Defined.

(** Within the windows whose period fits [int64], the period is the
    window plus a non-negative offset below a quarter of it. *)
Lemma effectivePeriod_positive (d : Z) (s : string) :
  0 < d -> 5 * d <= 4 * max_int64 ->
  effectivePeriod d s = d + quantizeOffset (adler32_Checksum (list_byte_of_string s)) d /\
  d <= effectivePeriod d s /\ 4 * effectivePeriod d s < 5 * d.
Proof.
  intros Hd Hmax. unfold max_int64 in Hmax.
  destruct (effectivePeriod_spec d s) as (a & Hq & Ha & Hlt & Hp);
    [lia|unfold min_int64, max_int64; lia|].
  replace (d <? 0) with false in * by (symmetry; apply Z.ltb_ge; lia).
  cbn [cond_Zopp] in *. rewrite Hp, Hq, wrap64_small by lia. lia.
Qed.

(** C4 (as amended). For a window [d > 0] whose period fits [int64],
    both effective periods lie in [[d, 1.25 d)], and they differ whenever
    the checksums are at least [2^35 / d] apart. *)
Theorem effectivePeriod_jitter (d : Z) (s1 s2 : string) :
  0 < d -> 5 * d <= 4 * max_int64 ->
  let sum1 := adler32_Checksum (list_byte_of_string s1) in
  let sum2 := adler32_Checksum (list_byte_of_string s2) in
  (d <= effectivePeriod d s1 /\ 4 * effectivePeriod d s1 < 5 * d) /\
  (d <= effectivePeriod d s2 /\ 4 * effectivePeriod d s2 < 5 * d) /\
  (2 ^ 35 <= Z.abs (sum1 - sum2) * d -> effectivePeriod d s1 <> effectivePeriod d s2).
Proof.
  intros Hd Hmax sum1 sum2.
  destruct (effectivePeriod_positive d s1 Hd Hmax) as (Hp1 & Hlo1 & Hhi1).
  destruct (effectivePeriod_positive d s2 Hd Hmax) as (Hp2 & Hlo2 & Hhi2).
  split; [split; assumption|]. split; [split; assumption|].
  intros Hsep. rewrite Hp1, Hp2. fold sum1 sum2.
  pose proof (adler32_Checksum_range (list_byte_of_string s1)) as Hr1.
  pose proof (adler32_Checksum_range (list_byte_of_string s2)) as Hr2.
  fold sum1 in Hr1. fold sum2 in Hr2. unfold max_int64 in Hmax.
  destruct (Z.le_gt_cases sum1 sum2) as [Hle|Hgt].
  - assert (H : quantizeOffset sum1 d <> quantizeOffset sum2 d).
    { replace (Z.abs (sum1 - sum2)) with (sum2 - sum1) in Hsep by lia.
      apply quantizeOffset_separation; assumption || lia. }
    lia.
  - assert (H : quantizeOffset sum2 d <> quantizeOffset sum1 d).
    { replace (Z.abs (sum1 - sum2)) with (sum1 - sum2) in Hsep by lia.
      apply quantizeOffset_separation; assumption || lia. }
    lia.
Qed.

Lemma effectivePeriod_jitter_witness :
  (10000000000 <= effectivePeriod 10000000000 "a" /\
   4 * effectivePeriod 10000000000 "a" < 5 * 10000000000) /\
  effectivePeriod 10000000000 "a" <> effectivePeriod 10000000000 "b".
Proof.
  destruct (effectivePeriod_jitter 10000000000 "a" "b") as (H1 & _ & H3).
  - lia.
  - unfold max_int64. lia.
  - split; [exact H1|]. apply H3. vm_compute. discriminate.
Defined.

(** C4 (as stated) fails: with a one-second window the paths ["bb"] and
    ["ad"] have different checksums and the same effective period. *)
Lemma effectivePeriod_jitter_counterexample :
  ~ (forall (d : Z) (s1 s2 : string),
        0 < d <= max_int64 ->
        (adler32_Checksum (list_byte_of_string s1) <>
           adler32_Checksum (list_byte_of_string s2) ->
         effectivePeriod d s1 <> effectivePeriod d s2) /\
        (d <= effectivePeriod d s1 /\ 4 * effectivePeriod d s1 < 5 * d) /\
        (d <= effectivePeriod d s2 /\ 4 * effectivePeriod d s2 < 5 * d)).
Proof.
  intros H.
  destruct (H 1000000000 "bb" "ad")%string as [Hdiff _].
  - unfold max_int64. lia.
  - apply Hdiff.
    + vm_compute. discriminate.
    + vm_compute. reflexivity.
Qed.

(** Beyond four fifths of the largest duration the sum wraps around:
    the period of the largest window is negative. *)
Lemma effectivePeriod_wraps :
  effectivePeriod max_int64 "a" = -9219923915776720897.
Proof. vm_compute. reflexivity. Qed.

(** C5 (as amended). With a zero window [quantize] is constantly 0;
    with a positive window whose period fits [int64] it returns for every
    time and is non-decreasing in the time. *)
Theorem quantize_monotone (d : Z) (s : string) :
  (d = 0 -> forall t, quantize t d s = Returns 0) /\
  (0 < d -> 5 * d <= 4 * max_int64 ->
   forall t1 t2, min_int64 <= t1 -> t1 <= t2 -> t2 <= max_int64 ->
   exists q1 q2,
     quantize t1 d s = Returns q1 /\ quantize t2 d s = Returns q2 /\ q1 <= q2).
Proof.
  split.
  - intros -> t. reflexivity.
  - intros Hd Hmax t1 t2 Ht1 Ht12 Ht2.
    destruct (effectivePeriod_positive d s Hd Hmax) as (_ & Hlo & Hhi).
    unfold quantize, int64_div.
    destruct (d =? 0) eqn:E0; [apply Z.eqb_eq in E0; lia|].
    set (p := effectivePeriod d s) in *.
    destruct (p =? 0) eqn:E1; [apply Z.eqb_eq in E1; lia|].
    assert (Hq : forall t, min_int64 <= t <= max_int64 -> wrap64 (Z.quot t p) = Z.quot t p).
    { intros t Ht. unfold min_int64, max_int64 in Ht. apply wrap64_small.
      destruct (Z.le_gt_cases 0 t) as [Hpos|Hneg].
      - pose proof (Z.quot_pos t p Hpos ltac:(lia)).
        pose proof (Z.quot_le_upper_bound t p t ltac:(lia)) as Hub.
        assert (t <= p * t) by nia. lia.
      - rewrite <- (Z.opp_involutive t), Z.quot_opp_l by lia.
        pose proof (Z.quot_pos (- t) p ltac:(lia) ltac:(lia)).
        pose proof (Z.quot_le_upper_bound (- t) p (- t) ltac:(lia)) as Hub.
        assert (- t <= p * - t) by nia. lia. }
    exists (Z.quot t1 p), (Z.quot t2 p).
    rewrite !Hq by (unfold min_int64, max_int64 in *; lia).
    repeat split. apply Z.quot_le_mono; lia.
Qed.

Lemma quantize_monotone_witness :
  exists q1 q2,
    quantize 1700000000000000000 10000000000 "a" = Returns q1 /\
    quantize 1700000000100000000 10000000000 "a" = Returns q2 /\ q1 <= q2.
Proof.
  destruct (quantize_monotone 10000000000 "a") as [_ H].
  apply H; unfold min_int64, max_int64; lia.
Defined.

(** C5 (as stated) fails for a window close to the largest duration:
    the period wraps around to a negative number and a later time gets a
    smaller bucket. *)
Lemma quantize_monotone_counterexample :
  ~ (forall (d t1 t2 : Z) (s : string) (q1 q2 : Z),
        0 < d <= max_int64 ->
        min_int64 <= t1 -> t1 <= t2 -> t2 <= max_int64 ->
        quantize t1 d s = Returns q1 -> quantize t2 d s = Returns q2 ->
        q1 <= q2).
Proof.
  intros H.
  specialize (H max_int64 0 max_int64 "a"%string 0 (-1)).
  assert (Hle : 0 <= -1); [|lia].
  apply H; vm_compute; try reflexivity; try discriminate.
  split; [reflexivity|discriminate].
Qed.

(* ================================================================== *)
(** * Further properties *)
(* ================================================================== *)

(** ** Errors of [ReadDir] *)

(** X1. Which error [ReadDir] returns: "not a directory" exactly for a
    non-directory, [io.EOF] exactly for a directory read with [n > 0] at
    the end of the listing, and none otherwise; an error always comes with
    an empty slice and leaves the file as it was. *)
Theorem ReadDir_errors (f : file) (n : Z) :
  0 <= pos f <= len (Dirs f) ->
  exists f' dirs err,
    ReadDir f n = Returns (f', (dirs, err)) /\
    (err = Some (PathError "readdir" (Nm (FI f)) NotADirectory) <->
       fileInfo_IsDir (FI f) = false) /\
    (err = Some EOF <->
       fileInfo_IsDir (FI f) = true /\ 0 < n /\ pos f = len (Dirs f)) /\
    (err = None <->
       fileInfo_IsDir (FI f) = true /\ (n <= 0 \/ pos f < len (Dirs f))) /\
    (err <> None -> dirs = [] /\ f' = f).
Proof.
  intros Hp. destruct (fileInfo_IsDir (FI f)) eqn:Hd.
  - destruct (Z.le_gt_cases n 0) as [Hn|Hn].
    + rewrite ReadDir_nonpositive by assumption.
      exists f, (Dirs f), None. split; [reflexivity|].
      repeat split; try discriminate; try congruence; try lia; intros; intuition (try lia; try congruence).
    + rewrite ReadDir_positive by (assumption || lia).
      destruct (pos f =? len (Dirs f)) eqn:E.
      * apply Z.eqb_eq in E. exists f, [], (Some EOF). split; [reflexivity|].
        repeat split; try discriminate; try congruence; try lia;
          intros; intuition (try lia; try congruence).
      * apply Z.eqb_neq in E. eexists _, _, None. split; [reflexivity|].
        repeat split; try discriminate; try congruence; try lia;
          intros; intuition (try lia; try congruence).
  - unfold ReadDir. rewrite Hd. cbn [negb].
    eexists _, _, _. split; [reflexivity|]. unfold fileInfo_Name.
    repeat split; try discriminate; try congruence;
      intros; intuition (try lia; try congruence).
Qed.

Lemma ReadDir_errors_witness :
  exists f' dirs,
    ReadDir (set_pos sampleDir 3) 2 = Returns (f', (dirs, Some EOF)) /\
    dirs = [] /\ f' = set_pos sampleDir 3.
Proof.
  destruct (ReadDir_errors (set_pos sampleDir 3) 2) as (f' & dirs & err & H1 & _ & H3 & _ & H5).
  - simpl. unfold len. simpl. lia.
  - assert (He : err = Some EOF).
    { apply H3. repeat split; reflexivity. }
    subst err. destruct H5 as [H5 H6]; [discriminate|].
    exists f', dirs. repeat split; assumption.
Defined.

(** X2. The end of the listing is final: once the cursor of a directory
    is at the end, it stays there through any further calls, so every
    later [ReadDir] with [m > 0] returns an empty slice and [io.EOF]. *)
Theorem ReadDir_eof_sticky (f : file) (ns : list Z) (m : Z) :
  fileInfo_IsDir (FI f) = true -> pos f = len (Dirs f) -> 0 < m ->
  exists f',
    ReadDirs f ns = Returns f' /\ pos f' = len (Dirs f') /\
    ReadDir f' m = Returns (f', ([], Some EOF)).
Proof.
  intros Hd Hp Hm. revert f Hd Hp.
  induction ns as [|n ns IH]; intros f Hd Hp.
  - exists f. split; [reflexivity|]. split; [assumption|].
    rewrite ReadDir_positive
      by (assumption || (pose proof (len_nonneg (Dirs f)); lia)).
    now rewrite Hp, Z.eqb_refl.
  - cbn [ReadDirs].
    destruct (ReadDir_cursor_step f n) as (f1 & r & Hr & Hp1 & Hmono & Hd1 & Hf1);
      [pose proof (len_nonneg (Dirs f)); lia|].
    rewrite Hr. apply IH.
    + now rewrite Hf1.
    + rewrite Hd1 in *. lia.
Qed.

Lemma ReadDir_eof_sticky_witness :
  exists f',
    ReadDirs (set_pos sampleDir 3) [0; 5; -1; 2] = Returns f' /\
    ReadDir f' 1 = Returns (f', ([], Some EOF)).
Proof.
  destruct (ReadDir_eof_sticky (set_pos sampleDir 3) [0; 5; -1; 2] 1)
    as (f' & H1 & _ & H3); try reflexivity.
  exists f'. split; assumption.
Defined.

(** ** Reading and seeking the content *)

Lemma file_eta (f : file) (r : bytesReader) :
  ReadSeeker f = Some r -> set_ReadSeeker f r = f.
Proof. destruct f as [rs fi p ds]. simpl. intros ->. reflexivity. Qed.

(** What [bytes.Reader.Read] does at a non-negative index. *)
Lemma bytesReader_Read_slice (r : bytesReader) (b : list byte) :
  0 <= br_i r ->
  bytesReader_Read r b =
    if len (br_s r) <=? br_i r then (r, (b, 0, Some EOF))
    else
      let k := Nat.min (List.length b) (List.length (unread r)) in
      (mkBytesReader (br_s r) (br_i r + Z.of_nat k),
       (firstn k (unread r) ++ skipn k b, Z.of_nat k, None)).
Proof.
  intros Hi. unfold bytesReader_Read, copy, unread.
  destruct (len (br_s r) <=? br_i r); reflexivity.
Qed.

Lemma unread_length (r : bytesReader) :
  0 <= br_i r ->
  Z.of_nat (List.length (unread r)) = Z.max 0 (len (br_s r) - br_i r).
Proof. intros Hi. unfold unread, len. rewrite length_skipn. lia. Qed.

(** The position a [Seek] aims at. *)
Lemma bytesReader_Seek_target (r : bytesReader) (offset whence : Z) :
  0 <= whence <= 2 -> 0 <= br_i r <= max_int64 ->
  min_int64 <= offset <= max_int64 ->
  let base := if whence =? SeekStart then 0
              else if whence =? SeekCurrent then br_i r else len (br_s r) in
  len (br_s r) <= max_int64 ->
  min_int64 <= base + offset <= max_int64 ->
  bytesReader_Seek r offset whence =
    if base + offset <? 0 then
      (r, (0, Some (UpstreamError "bytes.Reader.Seek: negative position")))
    else (mkBytesReader (br_s r) (base + offset), (base + offset, None)).
Proof.
  intros Hw Hi Ho base Hl Hb. unfold bytesReader_Seek, SeekStart, SeekCurrent, SeekEnd in *.
  unfold min_int64, max_int64 in *.
  destruct (whence =? 0) eqn:E0.
  - subst base. cbn iota in *. rewrite Z.add_0_l. reflexivity.
  - destruct (whence =? 1) eqn:E1.
    + subst base. cbn iota in *. rewrite wrap64_small by lia. reflexivity.
    + destruct (whence =? 2) eqn:E2.
      * subst base. cbn iota in *. rewrite wrap64_small by lia. reflexivity.
      * apply Z.eqb_neq in E0, E1, E2. lia.
Qed.

(** X3. Seeking before the start fails and does not move: with any of
    the three modes, a target below zero gives an error, position 0 as
    result, and the file exactly as it was. *)
Theorem Seek_before_start (f : file) (r : bytesReader) (offset whence : Z) :
  ReadSeeker f = Some r ->
  0 <= whence <= 2 -> 0 <= br_i r <= max_int64 -> len (br_s r) <= max_int64 ->
  min_int64 <= offset <= max_int64 ->
  (if whence =? SeekStart then 0
   else if whence =? SeekCurrent then br_i r else len (br_s r)) + offset < 0 ->
  exists err, file_Seek f offset whence = Returns (f, (0, Some err)).
Proof.
  intros Hrs Hw Hi Hl Ho Hneg. unfold file_Seek. rewrite Hrs.
  rewrite bytesReader_Seek_target; try assumption.
  - match goal with |- context [?x <? 0] => destruct (x <? 0) eqn:E end.
    + rewrite file_eta by assumption. eexists. reflexivity.
    + apply Z.ltb_ge in E. lia.
  - unfold min_int64, max_int64 in *. pose proof (len_nonneg (br_s r)). revert Hneg.
    destruct (whence =? SeekStart); [lia|]. destruct (whence =? SeekCurrent); lia.
Qed.

Lemma Seek_before_start_witness :
  let f := mkFile (Some (mkBytesReader sampleData 1)) sampleInfo 0 [] in
  exists err, file_Seek f (-800) SeekCurrent = Returns (f, (0, Some err)).
Proof.
  intros f.
  apply (Seek_before_start f (mkBytesReader sampleData 1) (-800) SeekCurrent);
    try reflexivity; unfold min_int64, max_int64, SeekCurrent; simpl; unfold len; simpl; lia.
Defined.

(** X4. Seeking past the end is allowed: a target at or beyond the
    length is accepted and returned, and every [Read] after it reports no
    bytes and [io.EOF], leaving buffer and file untouched. *)
Theorem Seek_past_end (f : file) (r : bytesReader) (offset whence : Z) (b : list byte) :
  ReadSeeker f = Some r ->
  0 <= whence <= 2 -> 0 <= br_i r <= max_int64 -> len (br_s r) <= max_int64 ->
  min_int64 <= offset <= max_int64 ->
  let target := (if whence =? SeekStart then 0
                 else if whence =? SeekCurrent then br_i r else len (br_s r)) + offset in
  len (br_s r) <= target <= max_int64 ->
  exists f1,
    file_Seek f offset whence = Returns (f1, (target, None)) /\
    file_Read f1 b = Returns (f1, (b, 0, Some EOF)).
Proof.
  intros Hrs Hw Hi Hl Ho target Ht. unfold file_Seek. rewrite Hrs.
  pose proof (len_nonneg (br_s r)) as Hlen.
  rewrite bytesReader_Seek_target; try assumption;
    [|fold target; unfold min_int64, max_int64 in *; lia].
  fold target. destruct (target <? 0) eqn:E; [apply Z.ltb_lt in E; lia|].
  eexists. split; [reflexivity|].
  unfold file_Read. cbn [set_ReadSeeker ReadSeeker].
  unfold bytesReader_Read. cbn [br_s br_i].
  destruct (len (br_s r) <=? target) eqn:E2; [|apply Z.leb_gt in E2; lia].
  reflexivity.
Qed.

Lemma Seek_past_end_witness :
  let f := mkFile (Some (NewReader sampleData)) sampleInfo 0 [] in
  exists f1,
    file_Seek f 800000 SeekCurrent = Returns (f1, (800000, None)) /\
    file_Read f1 [x00; x00] = Returns (f1, ([x00; x00], 0, Some EOF)).
Proof.
  intros f.
  apply (Seek_past_end f (NewReader sampleData) 800000 SeekCurrent [x00; x00]);
    try reflexivity; unfold min_int64, max_int64, SeekCurrent; simpl; unfold len; simpl; lia.
Defined.

(** X5. Seek then read: after a seek to a target inside the content, a
    [Read] into a buffer of [n] bytes delivers the [min n (length -
    target)] bytes of the content that start at the target, leaves the
    rest of the buffer alone, and moves the position by that count. *)
Theorem Seek_then_Read (f : file) (r : bytesReader) (offset whence : Z) (b : list byte) :
  ReadSeeker f = Some r ->
  0 <= whence <= 2 -> 0 <= br_i r <= max_int64 -> len (br_s r) <= max_int64 ->
  min_int64 <= offset <= max_int64 ->
  let target := (if whence =? SeekStart then 0
                 else if whence =? SeekCurrent then br_i r else len (br_s r)) + offset in
  0 <= target < len (br_s r) ->
  let k := Z.min (len b) (len (br_s r) - target) in
  exists f1 f2,
    file_Seek f offset whence = Returns (f1, (target, None)) /\
    file_Read f1 b =
      Returns (f2, (firstn (Z.to_nat k) (skipn (Z.to_nat target) (br_s r))
                      ++ skipn (Z.to_nat k) b, k, None)) /\
    ReadSeeker f2 = Some (mkBytesReader (br_s r) (target + k)).
Proof.
  intros Hrs Hw Hi Hl Ho target Ht k. unfold file_Seek. rewrite Hrs.
  rewrite bytesReader_Seek_target; try assumption;
    [|fold target; unfold min_int64, max_int64 in *; lia].
  fold target. destruct (target <? 0) eqn:E; [apply Z.ltb_lt in E; lia|].
  eexists _, _. split; [reflexivity|].
  unfold file_Read. cbn [set_ReadSeeker ReadSeeker].
  rewrite bytesReader_Read_slice by (cbn [br_i]; lia). cbn [br_s br_i].
  destruct (len (br_s r) <=? target) eqn:E2; [apply Z.leb_le in E2; lia|].
  cbn zeta.
  assert (Hk : Z.of_nat (Nat.min (List.length b)
                 (List.length (unread (mkBytesReader (br_s r) target)))) = k).
  { rewrite Nat2Z.inj_min, unread_length by (cbn [br_i]; lia). cbn [br_s br_i].
    unfold k, len in *. lia. }
  assert (Hk' : Nat.min (List.length b)
                 (List.length (unread (mkBytesReader (br_s r) target))) = Z.to_nat k) by lia.
  rewrite Hk'. unfold unread. cbn [br_s br_i set_ReadSeeker ReadSeeker].
  replace (Z.of_nat (Z.to_nat k)) with k by lia.
  split; reflexivity.
Qed.

Lemma Seek_then_Read_witness :
  let f := mkFile (Some (NewReader longTail)) sampleInfo 0 [] in
  exists f1 f2,
    file_Seek f (-3) SeekEnd = Returns (f1, (2, None)) /\
    file_Read f1 [x00; x00] = Returns (f2, ([x6c; x6c], 2, None)) /\
    ReadSeeker f2 = Some (mkBytesReader longTail 4).
Proof.
  intros f.
  apply (Seek_then_Read f (NewReader longTail) (-3) SeekEnd [x00; x00]);
    try reflexivity; unfold min_int64, max_int64, SeekEnd; simpl; unfold len; simpl; lia.
Defined.

(** Reading until [io.EOF] from any position inside or past the
    content. *)
Lemma readLoop_from (n : nat) (fuel : nat) :
  (0 < n)%nat ->
  forall f r, ReadSeeker f = Some r -> 0 <= br_i r ->
  (List.length (unread r) < fuel)%nat ->
  exists r',
    readLoop fuel f n = Some (Returns (unread r, EOF, set_ReadSeeker f r')) /\
    unread r' = [] /\ br_s r' = br_s r.
Proof.
  intros Hn. induction fuel as [|fuel IH]; intros f r Hrs Hi Hfuel; [lia|].
  cbn [readLoop]. unfold file_Read. rewrite Hrs.
  rewrite bytesReader_Read_slice by assumption.
  pose proof (unread_length r Hi) as Hlen.
  destruct (len (br_s r) <=? br_i r) eqn:E.
  - apply Z.leb_le in E.
    assert (Hnil : unread r = []).
    { apply length_zero_iff_nil. lia. }
    exists r. rewrite Hnil. repeat split; try assumption. 
  - apply Z.leb_gt in E. cbn zeta.
    set (k := Nat.min (List.length (repeat x00 n)) (List.length (unread r))).
    assert (Hk : (0 < k <= List.length (unread r))%nat).
    { unfold k. rewrite repeat_length. lia. }
    set (r1 := mkBytesReader (br_s r) (br_i r + Z.of_nat k)).
    assert (Hu1 : unread r1 = skipn k (unread r)).
    { unfold unread, r1. cbn [br_s br_i]. rewrite skipn_skipn. f_equal. lia. }
    destruct (IH (set_ReadSeeker f r1) r1) as (r' & Hloop & Hnil & Hs).
    + reflexivity.
    + unfold r1. cbn [br_i]. lia.
    + rewrite Hu1, length_skipn. lia.
    + rewrite Hloop. exists r'. rewrite Nat2Z.id.
      rewrite firstn_app, firstn_firstn, Nat.min_id, length_firstn.
      replace (k - Nat.min k (List.length (unread r)))%nat with 0%nat by lia.
      cbn [firstn]. rewrite app_nil_r, Hu1, firstn_skipn.
      repeat split; assumption.
Qed.

(** X6. Reading a freshly opened file to the end: a caller that reads
    through a buffer of [n > 0] bytes until [Read] reports an error
    collects exactly the content, stops on [io.EOF], and leaves metadata,
    children and cursor as they were. *)
Theorem readLoop_content (f : file) (r : bytesReader) (n fuel : nat) :
  ReadSeeker f = Some r -> 0 <= br_i r ->
  (0 < n)%nat -> (List.length (content f) < fuel)%nat ->
  exists f',
    readLoop fuel f n = Some (Returns (content f, EOF, f')) /\
    content f' = [] /\ FI f' = FI f /\ Dirs f' = Dirs f /\ pos f' = pos f.
Proof.
  intros Hrs Hi Hn Hfuel. unfold content in *. rewrite Hrs in *.
  destruct (readLoop_from n fuel Hn f r Hrs Hi Hfuel) as (r' & Hloop & Hnil & _).
  exists (set_ReadSeeker f r'). rewrite Hloop. cbn [set_ReadSeeker ReadSeeker FI Dirs pos].
  repeat split. exact Hnil.
Qed.

Lemma readLoop_content_witness :
  exists f',
    readLoop 6 (mkFile (Some (NewReader longTail)) sampleInfo 0 []) 2 =
      Some (Returns (longTail, EOF, f')) /\ content f' = [].
Proof.
  destruct (readLoop_content (mkFile (Some (NewReader longTail)) sampleInfo 0 [])
              (NewReader longTail) 2 6) as (f' & H1 & H2 & _);
    try reflexivity; simpl; try lia.
  exists f'. split; assumption.
Defined.

(** X7. The directory cursor and the content position are independent:
    [ReadDir] never touches the content reader, metadata or listing, and
    [Read] and [Seek] never touch the cursor, metadata or listing. *)
Theorem cursor_and_content_independent (f : file) (n offset whence : Z) (b : list byte) :
  match ReadDir f n with
  | Returns (f', _) => ReadSeeker f' = ReadSeeker f /\ FI f' = FI f /\ Dirs f' = Dirs f
  | Panics => True
  end /\
  match file_Read f b with
  | Returns (f', _) => pos f' = pos f /\ FI f' = FI f /\ Dirs f' = Dirs f
  | Panics => ReadSeeker f = None
  end /\
  match file_Seek f offset whence with
  | Returns (f', _) => pos f' = pos f /\ FI f' = FI f /\ Dirs f' = Dirs f
  | Panics => ReadSeeker f = None
  end.
Proof.
  split; [|split].
  - unfold ReadDir.
    destruct (negb (fileInfo_IsDir (FI f))); [repeat split|].
    destruct (n <=? 0).
    + destruct (copyRange (Dirs f) 0 (List.length (Dirs f))); [repeat split|exact I].
    + match goal with |- context [if ?c then Returns _ else _] => destruct c end;
        [repeat split|].
      match goal with |- context [if ?c then Panics else _] => destruct c end; [exact I|].
      destruct (pos f <? 0); [exact I|].
      match goal with |- context [copyRange ?a ?i ?k] => destruct (copyRange a i k) end;
        [repeat split|exact I].
  - unfold file_Read. destruct (ReadSeeker f) as [r|]; [|reflexivity].
    destruct (bytesReader_Read r b) as [r' res]. repeat split.
  - unfold file_Seek. destruct (ReadSeeker f) as [r|]; [|reflexivity].
    destruct (bytesReader_Seek r offset whence) as [r' res]. repeat split.
Qed.

(** ** The loader *)

Lemma listDirs_noStat_from (entries : list DirEntry) :
  forall acc, fold_left (appendEntry true) entries acc = acc ++ typeSummaries entries.
Proof.
  induction entries as [|e entries IH]; intros acc; simpl.
  - now rewrite app_nil_r.
  - rewrite IH. unfold appendEntry. simpl. now rewrite <- app_assoc.
Qed.

(** X8. Without per-child metadata every entry is listed, in order,
    under the entry's own name and type bits, with size 0 and the zero
    modification time; [Info()] is not consulted, so a child whose
    [Info()] would fail is listed all the same. *)
Theorem listDirs_noStat (entries : list DirEntry) :
  listDirs true entries = typeSummaries entries /\
  map dirEntry_Name (listDirs true entries) = map entry_Name entries /\
  map (fun di => fileInfo_Mode (dirEntry_FI di)) (listDirs true entries) =
    map entry_Type entries /\
  Forall (fun di => fileInfo_Size (dirEntry_FI di) = 0 /\
                    fileInfo_ModTime (dirEntry_FI di) = zeroTime)
         (listDirs true entries) /\
  (forall entries',
      map entry_Name entries' = map entry_Name entries ->
      map entry_Type entries' = map entry_Type entries ->
      listDirs true entries' = listDirs true entries).
Proof.
  assert (H : forall es, listDirs true es = typeSummaries es).
  { intros es. unfold listDirs. now rewrite listDirs_noStat_from. }
  rewrite H. unfold typeSummaries. repeat split.
  - rewrite map_map. reflexivity.
  - rewrite map_map. reflexivity.
  - apply Forall_forall. intros di Hin. apply in_map_iff in Hin.
    destruct Hin as (e & <- & _). split; reflexivity.
  - intros entries' Hn Ht. rewrite H. unfold typeSummaries.
    revert entries Hn Ht. induction entries' as [|e' es' IH]; intros [|e es] Hn Ht;
      try discriminate; [reflexivity|].
    simpl in *. injection Hn as Hn1 Hn2. injection Ht as Ht1 Ht2.
    rewrite Hn1, Ht1. f_equal. now apply IH.
Qed.

(** X9. With per-child metadata the listing is never longer than the
    enumeration, and it has the same length exactly when no [Info()]
    failed. *)
Theorem listDirs_stat_length (entries : list DirEntry) :
  len (listDirs false entries) <= len entries /\
  (len (listDirs false entries) = len entries <->
   Forall (fun entry => exists fi, entry_Info entry = Ok fi) entries).
Proof.
  assert (H : listDirs false entries = childSummaries entries).
  { unfold listDirs. now rewrite listDirs_from. }
  rewrite H. clear H. unfold len, childSummaries.
  induction entries as [|e es [IH1 IH2]].
  - simpl. split; [lia|]. split; [constructor|reflexivity].
  - cbn [flat_map].
    destruct (entry_Info e) as [fi|err] eqn:Hi; cbn [app List.length].
    + split; [lia|]. split.
      * intros Hl. constructor; [now exists fi|]. apply IH2. lia.
      * intros HF. inversion HF; subst.
        match goal with Hes : Forall _ es |- _ => apply IH2 in Hes end. lia.
    + split; [lia|]. split.
      * intros Hl. lia.
      * intros HF. inversion HF as [|? ? [fi Hfi] ?]; subst. congruence.
Qed.

(** ** Opening through the cache *)

(** For every duration the bucket is computed without a panic. *)
Lemma quantize_returns (t d : Z) (s : string) :
  min_int64 <= d <= max_int64 -> exists q, quantize t d s = Returns q.
Proof.
  intros Hr. unfold quantize, int64_div.
  destruct (d =? 0) eqn:E0; [eexists; reflexivity|]. apply Z.eqb_neq in E0.
  destruct (effectivePeriod_spec d s E0 Hr) as (a & Hq & Ha & Hlt & Hp).
  unfold min_int64, max_int64 in Hr.
  assert (Hnz : effectivePeriod d s <> 0).
  { rewrite Hp. apply wrap64_nonzero; destruct (d <? 0) eqn:E; cbn [cond_Zopp];
      try apply Z.ltb_lt in E; try apply Z.ltb_ge in E; lia. }
  destruct (effectivePeriod d s =? 0) eqn:E1; [apply Z.eqb_eq in E1; lia|].
  eexists. reflexivity.
Qed.

(** What the decode path returns, for any buffer. *)
Lemma decodeRecord_cases (g : gobCodec) (name : string) (buf : ByteView) :
  (exists cause, decodeRecord g name buf = Returns (Err (PathError "open" name cause))) \/
  (exists f off, decodeRecord g name buf = Returns (Ok (f, off)) /\
                 0 <= off <= len buf /\ pos f = 0 /\
                 content f = skipn (Z.to_nat off) buf).
Proof.
  pose proof (decodeRecord_spec g name buf) as H.
  destruct (runDecoder (gobDecode g) (NewReader buf)) as (r', res).
  destruct H as [Hi H]. rewrite H. destruct res as [[fi dirs]|err].
  - right. eexists _, _. split; [reflexivity|]. repeat split; lia.
  - left. eexists. reflexivity.
Qed.

(** X10. The decode path is safe on every cache value, well formed or
    not, and for every decoder: it never panics; a failure is an "open"
    error for the path; a success carries an offset inside the buffer, the
    rest of the buffer as content, and cursor 0. *)
Theorem decodeRecord_safe (g : gobCodec) (name : string) (buf : ByteView) :
  exists r,
    decodeRecord g name buf = Returns r /\
    match r with
    | Err e => exists cause, e = PathError "open" name cause
    | Ok (f, off) =>
        0 <= off <= len buf /\ pos f = 0 /\
        content f = skipn (Z.to_nat off) buf /\ len (content f) = len buf - off
    end.
Proof.
  destruct (decodeRecord_cases g name buf) as [(cause & H)|(f & off & H & Ho & Hp & Hc)].
  - eexists. split; [exact H|]. now exists cause.
  - eexists. split; [exact H|]. repeat split; try assumption; try lia.
    rewrite Hc. unfold len in *. rewrite length_skipn. lia.
Qed.

(** X11. Every error of [Open], in either variant, is a path error
    with operation "open" and the requested name, whatever the cache
    returns. *)
Theorem Open_error_shape (g : gobCodec) (ValidPath : string -> bool) (now : Z)
        (cfs : cacheFS) (name : string) (e : error) :
  (Open g ValidPath now cfs name = Returns (Err e) \/
   mailgun.Open g ValidPath cfs name = Returns (Err e)) ->
  exists cause, e = PathError "open" name cause.
Proof.
  assert (Hdec : forall buf e0,
             match decodeRecord g name buf with
             | Panics => Panics
             | Returns (Err err) => Returns (Err err)
             | Returns (Ok (f, _)) => Returns (Ok f)
             end = Returns (Err e0) -> exists cause, e0 = PathError "open" name cause).
  { intros buf e0 H.
    destruct (decodeRecord_cases g name buf) as [(cause & Hd)|(f & off & Hd & _)];
      rewrite Hd in H; inversion H. now exists cause. }
  intros [H|H].
  - unfold Open in H. destruct (negb (ValidPath name)).
    + inversion H. now eexists.
    + destruct (quantize now (duration cfs) name) as [t|]; [|discriminate].
      destruct (cache_Get cfs (cacheKey t name)) as [[buf|err]|]; try discriminate.
      * now apply (Hdec buf).
      * inversion H. now eexists.
  - unfold mailgun.Open in H. destruct (negb (ValidPath name)).
    + inversion H. now eexists.
    + destruct (cache_Get cfs name) as [[buf|err]|]; try discriminate.
      * now apply (Hdec buf).
      * inversion H. now eexists.
Qed.

Lemma Open_error_shape_witness :
  exists cause,
    PathError "open" "missing" (UpstreamError "file does not exist") =
    PathError "open" "missing" cause.
Proof.
  apply (Open_error_shape tinyCodec alwaysValid 1700000000000000000
           (mkCacheFS 10000000000 (getter tinyCodec exampleFS false)) "missing").
  left. vm_compute. reflexivity.
Defined.

Lemma Open_on_miss (g : gobCodec) (ValidPath : string -> bool) (innerFS : FS)
      (noStat : bool) (now d : Z) (name : string) :
  ValidPath name = true -> min_int64 <= d <= max_int64 ->
  Open g ValidPath now (mkCacheFS d (getter g innerFS noStat)) name =
    match load g innerFS noStat name with
    | Panics => Panics
    | Returns (Err err) => Returns (Err (PathError "open" name err))
    | Returns (Ok buf) =>
        match decodeRecord g name buf with
        | Panics => Panics
        | Returns (Err err) => Returns (Err err)
        | Returns (Ok (f, _)) => Returns (Ok f)
        end
    end.
Proof.
  intros Hv Hd. unfold Open. rewrite Hv. cbn [negb duration cache_Get].
  destruct (quantize_returns now d name Hd) as (t & ->).
  unfold getter. rewrite ParseQuery_cacheKey. reflexivity.
Qed.

(** X12. On a miss the quantized key is transparent: for every time
    and every duration, [Open] of a valid name gives what loading exactly
    that name from the wrapped file system and decoding the result give,
    with a load error wrapped as an "open" error. *)
Theorem Open_miss (g : gobCodec) (ValidPath : string -> bool) (innerFS : FS)
        (noStat : bool) (now d : Z) (name : string) :
  ValidPath name = true -> min_int64 <= d <= max_int64 ->
  Open g ValidPath now (mkCacheFS d (getter g innerFS noStat)) name =
    match load g innerFS noStat name with
    | Panics => Panics
    | Returns (Err err) => Returns (Err (PathError "open" name err))
    | Returns (Ok buf) =>
        match decodeRecord g name buf with
        | Panics => Panics
        | Returns (Err err) => Returns (Err err)
        | Returns (Ok (f, _)) => Returns (Ok f)
        end
    end.
Proof. exact (Open_on_miss g ValidPath innerFS noStat now d name). Qed.

Lemma Open_miss_witness :
  Open tinyCodec alwaysValid 1700000000000000000
       (mkCacheFS (-10000000000) (getter tinyCodec exampleFS true)) "a.txt" =
    Returns (Ok (mkFile (Some (NewReader sampleData)) sampleInfo 0 [])).
Proof.
  rewrite (Open_miss tinyCodec alwaysValid exampleFS true 1700000000000000000
             (-10000000000) "a.txt" eq_refl).
  - vm_compute. reflexivity.
  - unfold min_int64, max_int64. lia.
Defined.

(** X13. A regular file end to end: when the wrapped file system
    serves [name] as a non-directory with content [data] and gob carries
    the header through, [Open] on a miss returns a file whose [Stat] is the
    wrapped file's metadata, with no children, cursor 0, and content
    [data], which a reading loop recovers in full. *)
Theorem Open_regular_file (g : gobCodec) (ValidPath : string -> bool) (innerFS : FS)
        (noStat : bool) (now d : Z) (name : string)
        (inner : File) (info : FileInfo) (data hdr : list byte) :
  ValidPath name = true -> min_int64 <= d <= max_int64 ->
  innerFS name = Ok inner -> File_Stat inner = Ok info -> info_IsDir info = false ->
  File_ReadAll inner = (data, None) ->
  gobEncode g (mkFile None (statInfo info) 0 []) = Ok hdr ->
  runDecoder (gobDecode g) (NewReader (hdr ++ data)) =
    (mkBytesReader (hdr ++ data) (len hdr), Ok (statInfo info, [])) ->
  exists f,
    Open g ValidPath now (mkCacheFS d (getter g innerFS noStat)) name = Returns (Ok f) /\
    file_Stat f = (statInfo info, None) /\ Dirs f = [] /\ pos f = 0 /\
    content f = data /\
    forall n fuel, (0 < n)%nat -> (List.length data < fuel)%nat ->
      exists f', readLoop fuel f n = Some (Returns (data, EOF, f')).
Proof.
  intros Hv Hd Hopen Hstat Hdir Hread Henc Hdec.
  exists (mkFile (Some (NewReader data)) (statInfo info) 0 []).
  rewrite Open_on_miss by assumption.
  unfold load. rewrite Hopen, Hstat, Hdir, Hread.
  unfold encodeRecord. fold (statInfo info). rewrite Henc.
  rewrite (decodeRecord_header g name hdr data (statInfo info) [] Hdec).
  repeat split. intros n fuel Hn Hfuel.
  destruct (readLoop_from n fuel Hn (mkFile (Some (NewReader data)) (statInfo info) 0 [])
              (NewReader data) eq_refl ltac:(simpl; lia) Hfuel) as (r' & Hloop & _).
  eexists. exact Hloop.
Qed.

Lemma Open_regular_file_witness :
  exists f,
    Open tinyCodec alwaysValid 1700000000000000000
         (mkCacheFS 10000000000 (getter tinyCodec exampleFS false)) "a.txt" = Returns (Ok f) /\
    content f = sampleData /\
    exists f', readLoop 3 f 1 = Some (Returns (sampleData, EOF, f')).
Proof.
  destruct (Open_regular_file tinyCodec alwaysValid exampleFS false 1700000000000000000
              10000000000 "a.txt" exampleFile (mkFSInfo "a.txt" 2 0 zeroTime false)
              sampleData sampleHeader) as (f & H1 & _ & _ & _ & H5 & H6);
    try reflexivity; [unfold min_int64, max_int64; lia|].
  exists f. split; [exact H1|]. split; [exact H5|].
  apply H6; simpl; lia.
Defined.

(** X14. A directory end to end: when the wrapped file system serves
    [name] as a directory and gob carries the header through, [Open] on a
    miss returns a file whose children are the listing the loader built,
    and a first [ReadDir(0)] returns them all with no error. *)
Theorem Open_directory (g : gobCodec) (ValidPath : string -> bool) (innerFS : FS)
        (noStat : bool) (now d : Z) (name : string)
        (inner : File) (info : FileInfo) (entries : list DirEntry) (hdr : list byte) :
  ValidPath name = true -> min_int64 <= d <= max_int64 ->
  innerFS name = Ok inner -> File_Stat inner = Ok info ->
  info_IsDir info = true -> FileMode_IsDir (info_Mode info) = true ->
  File_ReadDir inner = Some (entries, None) ->
  let dirs := if noStat then typeSummaries entries else childSummaries entries in
  gobEncode g (mkFile None (statInfo info) 0 dirs) = Ok hdr ->
  runDecoder (gobDecode g) (NewReader (hdr ++ [])) =
    (mkBytesReader (hdr ++ []) (len hdr), Ok (statInfo info, dirs)) ->
  exists f,
    Open g ValidPath now (mkCacheFS d (getter g innerFS noStat)) name = Returns (Ok f) /\
    Dirs f = dirs /\ content f = [] /\
    ReadDir f 0 = Returns (f, (dirs, None)).
Proof.
  intros Hv Hd Hopen Hstat Hdir Hmode Hread dirs Henc Hdec.
  assert (Hl : listDirs noStat entries = dirs).
  { unfold dirs, listDirs. destruct noStat.
    - now rewrite listDirs_noStat_from.
    - now rewrite listDirs_from. }
  exists (mkFile (Some (NewReader [])) (statInfo info) 0 dirs).
  rewrite Open_on_miss by assumption.
  unfold load. rewrite Hopen, Hstat, Hdir, Hread, Hl.
  unfold encodeRecord. fold (statInfo info). rewrite Henc.
  rewrite (decodeRecord_header g name hdr [] (statInfo info) dirs Hdec).
  repeat split. apply ReadDir_nonpositive; [exact Hmode|lia].
Qed.

Lemma Open_directory_witness :
  exists f,
    Open tinyCodec alwaysValid 1700000000000000000
         (mkCacheFS 10000000000 (getter tinyCodec exampleFS false)) "." = Returns (Ok f) /\
    map dirEntry_Name (Dirs f) = ["a"; "c"]%string /\
    ReadDir f 0 = Returns (f, (Dirs f, None)).
Proof.
  destruct (Open_directory tinyCodec alwaysValid exampleFS false 1700000000000000000
              10000000000 "." sampleRoot (mkFSInfo "." 0 ModeDir zeroTime true)
              sampleEntries [x01; x00; x01; x2e; x02; x01; x07; x00; x61; x01; x07; x00; x63])
    as (f & H1 & H2 & _ & H4);
    try reflexivity; [unfold min_int64, max_int64; lia|].
  exists f. split; [exact H1|]. rewrite H2. split; [reflexivity|exact H4].
Defined.

(** X15. Upstream failures surface from [Open] with their cause: when
    the wrapped file system cannot open the name, or its [Stat],
    [ReadDir] or [io.ReadAll] fails, [Open] returns the path error
    "open", the name, and that very error, and nothing is encoded. *)
Theorem Open_upstream_failure (g : gobCodec) (ValidPath : string -> bool) (innerFS : FS)
        (noStat : bool) (now d : Z) (name : string) (e : error) :
  ValidPath name = true -> min_int64 <= d <= max_int64 ->
  (innerFS name = Err e \/
   (exists inner, innerFS name = Ok inner /\ File_Stat inner = Err e) \/
   (exists inner info entries,
       innerFS name = Ok inner /\ File_Stat inner = Ok info /\ info_IsDir info = true /\
       File_ReadDir inner = Some (entries, Some e)) \/
   (exists inner info data,
       innerFS name = Ok inner /\ File_Stat inner = Ok info /\ info_IsDir info = false /\
       File_ReadAll inner = (data, Some e))) ->
  load g innerFS noStat name = Returns (Err e) /\
  Open g ValidPath now (mkCacheFS d (getter g innerFS noStat)) name =
    Returns (Err (PathError "open" name e)).
Proof.
  intros Hv Hd Hfail.
  assert (Hload : load g innerFS noStat name = Returns (Err e)).
  { unfold load.
    destruct Hfail as [H|[(inner & H1 & H2)|[(inner & info & es & H1 & H2 & H3 & H4)
                                            |(inner & info & data & H1 & H2 & H3 & H4)]]].
    - now rewrite H.
    - now rewrite H1, H2.
    - now rewrite H1, H2, H3, H4.
    - now rewrite H1, H2, H3, H4. }
  split; [exact Hload|]. rewrite Open_on_miss by assumption. now rewrite Hload.
Qed.

Lemma Open_upstream_failure_witness :
  Open tinyCodec alwaysValid 1700000000000000000
       (mkCacheFS 10000000000 (getter tinyCodec exampleFS false)) "missing" =
    Returns (Err (PathError "open" "missing" (UpstreamError "file does not exist"))).
Proof.
  apply (Open_upstream_failure tinyCodec alwaysValid exampleFS false 1700000000000000000
           10000000000 "missing" (UpstreamError "file does not exist")).
  - reflexivity.
  - unfold min_int64, max_int64. lia.
  - left. reflexivity.
Defined.

(** X16. The two variants agree on a miss: opening a name through the
    quantized key of the [golang/groupcache] variant, at any time, gives
    the same result as opening it through the plain key of the
    [mailgun/groupcache] variant, whatever expiry the latter attaches. *)
Theorem Open_variants_agree (g : gobCodec) (ValidPath : string -> bool) (innerFS : FS)
        (noStat : bool) (now now' d : Z) (name : string) :
  min_int64 <= d <= max_int64 ->
  Open g ValidPath now (mkCacheFS d (getter g innerFS noStat)) name =
  mailgun.Open g ValidPath (mkCacheFS d (mailgun.miss g innerFS noStat now' d)) name.
Proof.
  intros Hd. destruct (ValidPath name) eqn:Hv.
  - rewrite Open_on_miss by assumption.
    unfold mailgun.Open, mailgun.miss, mailgun.getter. rewrite Hv.
    cbn [negb cache_Get].
    destruct (load g innerFS noStat name) as [[buf|err]|]; reflexivity.
  - unfold Open, mailgun.Open. rewrite Hv. reflexivity.
Qed.

Lemma Open_variants_agree_witness :
  Open tinyCodec alwaysValid 1700000000000000000
       (mkCacheFS 10000000000 (getter tinyCodec exampleFS false)) "a.txt" =
  mailgun.Open tinyCodec alwaysValid
       (mkCacheFS 10000000000 (mailgun.miss tinyCodec exampleFS false 5 10000000000)) "a.txt".
Proof.
  apply Open_variants_agree. unfold min_int64, max_int64. lia.
Defined.

(** ** Buckets of the quantizer *)

(** With a positive window whose period fits [int64], the bucket of a
    time is its truncated quotient by the period. *)
Lemma quantize_quot (t d : Z) (s : string) :
  0 < d -> 5 * d <= 4 * max_int64 -> min_int64 <= t <= max_int64 ->
  quantize t d s = Returns (Z.quot t (effectivePeriod d s)) /\
  d <= effectivePeriod d s /\ 4 * effectivePeriod d s < 5 * d.
Proof.
  intros Hd Hmax Ht.
  destruct (effectivePeriod_positive d s Hd Hmax) as (_ & Hlo & Hhi).
  split; [|split; assumption].
  unfold quantize, int64_div.
  destruct (d =? 0) eqn:E0; [apply Z.eqb_eq in E0; lia|].
  set (p := effectivePeriod d s) in *.
  destruct (p =? 0) eqn:E1; [apply Z.eqb_eq in E1; lia|].
  f_equal. unfold min_int64, max_int64 in Ht. apply wrap64_small.
  destruct (Z.le_gt_cases 0 t) as [Hpos|Hneg].
  - pose proof (Z.quot_pos t p Hpos ltac:(lia)).
    pose proof (Z.quot_le_upper_bound t p t ltac:(lia)) as Hub.
    assert (t <= p * t) by nia. lia.
  - rewrite <- (Z.opp_involutive t), Z.quot_opp_l by lia.
    pose proof (Z.quot_pos (- t) p ltac:(lia) ltac:(lia)).
    pose proof (Z.quot_le_upper_bound (- t) p (- t) ltac:(lia)) as Hub.
    assert (- t <= p * - t) by nia. lia.
Qed.

(** X17. A soft time-to-live: for times after the epoch and a positive
    window whose period fits [int64], two times in the same bucket are
    less than one effective period apart; hence once [1.25 d] has passed
    the key has changed, and one effective period later the bucket is
    exactly one higher. *)
Theorem quantize_ttl (t1 t2 d : Z) (s : string) :
  0 < d -> 5 * d <= 4 * max_int64 -> 0 <= t1 -> t1 <= t2 -> t2 <= max_int64 ->
  exists q1 q2,
    quantize t1 d s = Returns q1 /\ quantize t2 d s = Returns q2 /\
    (q1 = q2 -> t2 - t1 < effectivePeriod d s) /\
    (5 * d <= 4 * (t2 - t1) -> q1 < q2) /\
    (t2 = t1 + effectivePeriod d s -> q2 = q1 + 1).
Proof.
  intros Hd Hmax Ht1 Ht12 Ht2.
  destruct (quantize_quot t1 d s Hd Hmax) as (Hq1 & Hlo & Hhi);
    [unfold min_int64, max_int64 in *; lia|].
  destruct (quantize_quot t2 d s Hd Hmax) as (Hq2 & _ & _);
    [unfold min_int64, max_int64 in *; lia|].
  set (p := effectivePeriod d s) in *.
  exists (Z.quot t1 p), (Z.quot t2 p).
  rewrite !Z.quot_div_nonneg by lia.
  split; [now rewrite Hq1, Z.quot_div_nonneg by lia|].
  split; [now rewrite Hq2, Z.quot_div_nonneg by lia|].
  assert (Hstep : forall t, (t + p) / p = t / p + 1).
  { intros t. replace (t + p) with (t + 1 * p) by lia. rewrite Z.div_add by lia. lia. }
  assert (Hfar : p <= t2 - t1 -> t1 / p < t2 / p).
  { intros Hp. pose proof (Z.div_le_mono (t1 + p) t2 p ltac:(lia) ltac:(lia)) as Hm.
    rewrite Hstep in Hm. lia. }
  repeat split.
  - intros Heq. destruct (Z.lt_ge_cases (t2 - t1) p) as [|Hge]; [assumption|].
    apply Hfar in Hge. lia.
  - intros Hgap. apply Hfar. lia.
  - intros ->. apply Hstep.
Qed.

Lemma quantize_ttl_witness :
  exists q1 q2,
    quantize 1700000000000000000 10000000000 "a" = Returns q1 /\
    quantize 1700000012500000000 10000000000 "a" = Returns q2 /\ q1 < q2.
Proof.
  destruct (quantize_ttl 1700000000000000000 1700000012500000000 10000000000 "a")
    as (q1 & q2 & H1 & H2 & _ & H4 & _); try (unfold max_int64; lia).
  exists q1, q2. repeat split; try assumption. apply H4. lia.
Defined.

(** X18. Around the epoch: truncated division makes the buckets
    symmetric, the bucket of [-t] is minus the bucket of [t], and bucket 0
    covers the times strictly between minus one period and plus one
    period. *)
Theorem quantize_epoch (t d : Z) (s : string) :
  0 < d -> 5 * d <= 4 * max_int64 -> - max_int64 <= t <= max_int64 ->
  exists q,
    quantize t d s = Returns q /\ quantize (- t) d s = Returns (- q) /\
    (q = 0 <-> - effectivePeriod d s < t < effectivePeriod d s).
Proof.
  intros Hd Hmax Ht.
  destruct (quantize_quot t d s Hd Hmax) as (Hq1 & Hlo & Hhi);
    [unfold min_int64, max_int64 in *; lia|].
  destruct (quantize_quot (- t) d s Hd Hmax) as (Hq2 & _ & _);
    [unfold min_int64, max_int64 in *; lia|].
  set (p := effectivePeriod d s) in *.
  exists (Z.quot t p). rewrite Z.quot_opp_l in Hq2 by lia.
  split; [assumption|]. split; [assumption|].
  rewrite Z.quot_small_iff by lia. lia.
Qed.

Lemma quantize_epoch_witness :
  quantize (-5000000000) 10000000000 "a" = Returns 0 /\
  quantize 5000000000 10000000000 "a" = Returns 0.
Proof.
  destruct (quantize_epoch 5000000000 10000000000 "a")
    as (q & H1 & H2 & H3); try (unfold max_int64; lia).
  assert (Hq : q = 0).
  { apply H3. destruct (effectivePeriod_positive 10000000000 "a") as (_ & Hlo & _);
      unfold max_int64; lia. }
  subst q. split; assumption.
Defined.

(** ** The offset for a signed sum *)

(** [quantizeOffset] takes an [int32]: the sign of the offset is the
    product of the signs of [sum] and [d], and its magnitude is the integer
    part of a real within three roundings of [|sum| * |d| / 2^34]. *)
Lemma quantizeOffset_signed_enclosure (sum d : Z) :
  - 2 ^ 32 < sum < 2 ^ 32 -> sum <> 0 -> d <> 0 -> - 2 ^ 63 <= d <= 2 ^ 63 ->
  exists (a : Z) (x : R),
    quantizeOffset sum d = cond_Zopp (xorb (sum <? 0) (d <? 0)) a /\ 0 <= a /\
    (IZR a <= x < IZR a + 1)%R /\
    (x * 17179869184
       <= IZR (Z.abs sum) * (1 + u53) * (IZR (Z.abs d) * (1 + u53)) * (1 + u53))%R.
Proof.
  intros Hs Hsum Hd Hdr. unfold quantizeOffset.
  change (float64_of_int (Z.shiftl 2 31)) with (S754_finite false 4503599627370496 (-20)).
  change (float64_of_int 4) with (S754_finite false 4503599627370496 (-50)).
  destruct (float64_of_int_spec d Hd ltac:(lia)) as (m2 & e2 & Hx2 & Hd2 & He2 & HF2).
  rewrite Hx2.
  destruct (float64_of_int_spec sum Hsum ltac:(lia)) as (m1 & e1 & Hx1 & Hd1 & He1 & HF1).
  rewrite Hx1.
  destruct (float64_mul_spec (sum <? 0) (d <? 0) m1 m2 e1 e2 Hd1 Hd2 He1 He2)
    as (m3 & e3 & Hx3 & Hd3 & He3 & HF3).
  rewrite Hx3.
  rewrite float64_div_pow2 by (assumption || lia).
  rewrite float64_div_pow2 by (assumption || lia).
  replace (e3 - -20 - 52 - -50 - 52) with (e3 - 34) by lia.
  assert (HS : (1 <= IZR (Z.abs sum) <= 4294967295)%R).
  { split; apply IZR_le; lia. }
  assert (HD : (1 <= IZR (Z.abs d) <= 9223372036854775808)%R).
  { split; apply IZR_le; lia. }
  set (S := IZR (Z.abs sum)) in *. set (D := IZR (Z.abs d)) in *.
  set (F1 := F2R (Zpos m1) e1) in *. set (F2 := F2R (Zpos m2) e2) in *.
  set (F3 := F2R (Zpos m3) e3) in *.
  assert (Hu : (0 < u53 < 1 / 1000000)%R) by (unfold u53; lra).
  assert (H12 : (S * (1 - u53) * (D * (1 - u53)) <= F1 * F2
                 <= S * (1 + u53) * (D * (1 + u53)))%R).
  { apply Rmult_enclosure; try lra; split; try lra; nra. }
  assert (H3 : (F3 <= S * (1 + u53) * (D * (1 + u53)) * (1 + u53))%R).
  { destruct HF3 as [HF3a HF3b]. destruct H12 as [H12a H12b].
    apply Rle_trans with (F1 * F2 * (1 + u53))%R; [assumption|].
    apply Rmult_le_compat_r; lra. }
  set (x := F2R (Zpos m3) (e3 - 34)).
  assert (Hx : (x * 17179869184 = F3)%R).
  { unfold x, F3. replace e3 with (e3 - 34 + 34) at 2 by lia.
    rewrite F2R_shift. rewrite <- IZR_pow2 by lia. reflexivity. }
  assert (Hxlt : (x < 9223372036854775808)%R).
  { assert (F3 <= 4294967295 * (1 + u53) * (9223372036854775808 * (1 + u53)) * (1 + u53))%R.
    { apply Rle_trans with (S * (1 + u53) * (D * (1 + u53)) * (1 + u53))%R; [lra|].
      apply Rmult_le_compat_r; [lra|].
      apply Rmult_le_compat; try nra. }
    nra. }
  destruct (int64_of_float64_floor (xorb (sum <? 0) (d <? 0)) m3 (e3 - 34) Hxlt)
    as (a & Ha1 & Ha2 & Ha3).
  exists a, x. fold x in Ha3. rewrite Hx. repeat split; try assumption; lra.
Qed.

(** X19. [quantizeOffset] with a signed sum, as its [int32] parameter
    allows: the offset is zero for a zero sum, otherwise its sign is the
    product of the signs of [sum] and [d], so a negative sum shortens the
    period; in magnitude it stays below a quarter of [d], and for a sum
    within [int32] below a seventh. *)
Theorem quantizeOffset_signed (sum d : Z) :
  - 2 ^ 32 < sum < 2 ^ 32 -> d <> 0 -> - 2 ^ 63 <= d <= 2 ^ 63 ->
  exists a,
    quantizeOffset sum d = cond_Zopp (xorb (sum <? 0) (d <? 0)) a /\
    0 <= a /\ 4 * a < Z.abs d /\
    (sum = 0 -> a = 0) /\
    (- 2 ^ 31 <= sum < 2 ^ 31 -> 7 * a < Z.abs d).
Proof.
  intros Hs Hd Hdr.
  destruct (Z.eq_dec sum 0) as [->|Hsum].
  - destruct (quantizeOffset_enclosure 0 d ltac:(lia) Hd Hdr)
      as (a & x & Hq & Ha & Hx & _ & Hhi).
    assert (Ha0 : a = 0).
    { assert (x <= 0)%R by lra. assert (IZR a <= 0)%R by lra.
      apply le_IZR in H0. lia. }
    subst a. exists 0. rewrite Hq. destruct (d <? 0); cbn; repeat split; lia.
  - destruct (quantizeOffset_signed_enclosure sum d Hs Hsum Hd Hdr)
      as (a & x & Hq & Ha & Hx & Hhi).
    exists a. split; [assumption|]. split; [assumption|].
    rewrite enclosure_factor in Hhi.
    assert (HD : (1 <= IZR (Z.abs d))%R) by (apply IZR_le; lia).
    set (D := IZR (Z.abs d)) in *.
    set (c := ((1 + u53) * (1 + u53) * (1 + u53))%R) in *.
    assert (Hc : (0 < c /\ 4294967295 * c < 4294967296 /\ 7 * c < 8)%R)
      by (unfold c, u53; repeat split; lra).
    repeat split.
    + apply lt_IZR. rewrite mult_IZR. fold D.
      assert (HS : (0 <= IZR (Z.abs sum) <= 4294967295)%R) by (split; apply IZR_le; lia).
      set (S := IZR (Z.abs sum)) in *.
      assert (H1 : (S * D * c <= 4294967295 * D * c)%R).
      { apply Rmult_le_compat_r; [lra|]. apply Rmult_le_compat_r; lra. }
      assert (H2 : (4294967295 * D * c < 4294967296 * D)%R).
      { replace (4294967295 * D * c)%R with ((4294967295 * c) * D)%R by ring.
        apply Rmult_lt_compat_r; lra. }
      lra.
    + intros ->. contradiction.
    + intros H31. apply lt_IZR. rewrite mult_IZR. fold D.
      assert (HS : (0 <= IZR (Z.abs sum) <= 2147483648)%R) by (split; apply IZR_le; lia).
      set (S := IZR (Z.abs sum)) in *.
      assert (H1 : (S * D * c <= 2147483648 * D * c)%R).
      { apply Rmult_le_compat_r; [lra|]. apply Rmult_le_compat_r; lra. }
      assert (H2 : (7 * (2147483648 * D * c) < 17179869184 * D)%R).
      { replace (7 * (2147483648 * D * c))%R with ((7 * c) * (2147483648 * D))%R by ring.
        replace (17179869184 * D)%R with (8 * (2147483648 * D))%R by ring.
        apply Rmult_lt_compat_r; lra. }
      lra.
Qed.

Lemma quantizeOffset_signed_witness :
  exists a, quantizeOffset (-1073741824) 10000000000 = - a /\ 0 <= a /\ 7 * a < 10000000000.
Proof.
  destruct (quantizeOffset_signed (-1073741824) 10000000000)
    as (a & Hq & Ha & _ & _ & H7); try lia.
  exists a. split; [exact Hq|]. split; [exact Ha|]. apply H7. lia.
Defined.

(** ** Keys the getter refuses *)

Lemma Cut_Contains (s : string) (sep c : ascii) :
  Ascii.eqb sep c = false ->
  Contains s c = Contains (fst (fst (Cut s sep))) c || Contains (snd (fst (Cut s sep))) c.
Proof.
  intros Hc. induction s as [|x s IH]; [reflexivity|].
  cbn [Cut Contains]. destruct (Ascii.eqb x sep) eqn:Hx.
  - apply Ascii.eqb_eq in Hx. subst x. rewrite Hc. reflexivity.
  - destruct (Cut s sep) as ((before, after), found). cbn [fst snd Contains] in *.
    rewrite IH. now rewrite orb_assoc.
Qed.

Lemma Cut_shorter (s : string) (sep : ascii) :
  (String.length (snd (fst (Cut s sep))) <= String.length s - 1)%nat.
Proof.
  induction s as [|x s IH]; [simpl; lia|].
  cbn [Cut]. destruct (Ascii.eqb x sep).
  - simpl. lia.
  - destruct (Cut s sep) as ((before, after), found). cbn [fst snd String.length] in *. lia.
Qed.

(** Once a semicolon has been seen the error of [parseQuery] stays. *)
Lemma parseQuery_semicolon_sticky (fuel : nat) :
  forall (m : Values) (query : string),
  exists m', parseQuery fuel m query (Some SemicolonError) = (m', Some SemicolonError).
Proof.
  induction fuel as [|fuel IH]; intros m query; [now exists m|].
  cbn [parseQuery]. destruct (String.length query =? 0)%nat; [now exists m|].
  destruct (Cut query "&") as ((key, rest), found).
  destruct (Contains key ";"); [apply IH|].
  destruct (String.length key =? 0)%nat; [apply IH|].
  destruct (Cut key "=") as ((k, v), found').
  destruct (QueryUnescape k); [|apply IH].
  destruct (QueryUnescape v); apply IH.
Qed.

Lemma parseQuery_semicolon (fuel : nat) :
  forall (m : Values) (query : string) (err : option error),
    (String.length query <= fuel)%nat -> Contains query ";" = true ->
    exists m', parseQuery fuel m query err = (m', Some SemicolonError).
Proof.
  induction fuel as [|fuel IH]; intros m query err Hlen Hc.
  - destruct query; [discriminate|simpl in Hlen; lia].
  - cbn [parseQuery]. destruct (String.length query =? 0)%nat eqn:H0.
    + apply Nat.eqb_eq in H0. destruct query; [discriminate|discriminate].
    + pose proof (Cut_Contains query "&" ";" eq_refl) as Hparts.
      pose proof (Cut_shorter query "&") as Hshort.
      apply Nat.eqb_neq in H0.
      destruct (Cut query "&") as ((key, rest), found). cbn [fst snd] in *.
      destruct (Contains key ";") eqn:Hk; [apply parseQuery_semicolon_sticky|].
      rewrite Hc in Hparts. cbn [orb] in Hparts. symmetry in Hparts.
      assert (Hrest : (String.length rest <= fuel)%nat) by lia.
      destruct (String.length key =? 0)%nat; [now apply IH|].
      destruct (Cut key "=") as ((k, v), found').
      destruct (QueryUnescape k); [|now apply IH].
      destruct (QueryUnescape v); now apply IH.
Qed.

(** X20. The getter refuses every key that contains a semicolon, with
    the "invalid cache key" error around [url.ParseQuery]'s, whatever else
    the key holds and without opening anything upstream; a path with a
    semicolon is still served by [Open], whose key escapes it. *)
Theorem getter_rejects_semicolon (g : gobCodec) (innerFS : FS) (noStat : bool)
        (key : string) :
  Contains key ";" = true ->
  getter g innerFS noStat key = Returns (Err (InvalidCacheKey SemicolonError)) /\
  forall (t : Z) (name : string),
    getter g innerFS noStat (cacheKey t name) = load g innerFS noStat name.
Proof.
  intros Hc. split.
  - unfold getter, ParseQuery.
    destruct (parseQuery_semicolon (String.length key) [] key None (Nat.le_refl _) Hc)
      as (m' & ->).
    reflexivity.
  - intros t name. unfold getter. rewrite ParseQuery_cacheKey. reflexivity.
Qed.

Lemma getter_rejects_semicolon_witness :
  getter tinyCodec sampleFS false "path=a;b&t=1" =
    Returns (Err (InvalidCacheKey SemicolonError)).
Proof.
  apply (getter_rejects_semicolon tinyCodec sampleFS false "path=a;b&t=1").
  reflexivity.
Defined.

(** ** Directory entries *)

(** X21. The methods of a cached directory entry are consistent with
    each other: [Type] holds type bits only, and [IsDir] can be read off
    [Type], because the directory bit is one of the type bits. *)
Theorem dirEntry_IsDir_Type (di : dirEntry) :
  dirEntry_IsDir di = FileMode_IsDir (dirEntry_Type di) /\
  FileMode_Type (dirEntry_Type di) = dirEntry_Type di /\
  Z.land (dirEntry_Type di) (Z.lnot ModeType) = 0.
Proof.
  unfold dirEntry_IsDir, dirEntry_Type, fileInfo_IsDir, fileInfo_Mode,
    FileMode_IsDir, FileMode_Type.
  set (m := Md (dirEntry_FI di)).
  repeat split.
  - rewrite <- Z.land_assoc.
    replace (Z.land ModeType ModeDir) with ModeDir by reflexivity. reflexivity.
  - rewrite <- Z.land_assoc, Z.land_diag. reflexivity.
  - rewrite <- Z.land_assoc, Z.land_lnot_diag. apply Z.land_0_r.
Qed.

(** ** The counting reader *)

(** X22. The counting reader is transparent: whatever a decoder reads,
    through [Read] or [ReadByte], it gets the same result from the counting
    reader as from the byte reader underneath, the reader underneath ends in
    the same state, and the count is the number of bytes consumed, between
    0 and the length of the buffer. *)
Theorem countingReader_transparent {A : Type} (d : decoder A) (buf : list byte) :
  exists (r' : bytesReader) (res : result A),
    runDecoder d (NewReader buf) = (r', res) /\
    runDecoder d (mkCountingReader (NewReader buf) 0) =
      (mkCountingReader r' (br_i r'), res) /\
    Count (fst (runDecoder d (mkCountingReader (NewReader buf) 0))) = br_i r' /\
    br_s r' = buf /\ 0 <= br_i r' <= len buf.
Proof.
  pose proof (runDecoder_counting d (NewReader buf) 0) as H.
  destruct (runDecoder d (NewReader buf)) as (r', res).
  exists r', res. cbn [NewReader br_i br_s] in H.
  destruct H as (H1 & H2 & H3); [pose proof (len_nonneg buf); lia|].
  replace (0 + (br_i r' - 0)) with (br_i r') in H1 by lia.
  rewrite H1. repeat split; try assumption; lia.
Qed.

(** ** When [Open] panics *)

(** X23. On a miss [Open] panics in exactly one situation: the name is
    valid and the wrapped file system serves it as a directory whose file
    does not implement [fs.ReadDirFile], so the unchecked type assertion of
    the getter fails.  Neither the division in [quantize], for any duration
    and time, nor the slicing in the decode path, for anything gob reads,
    can make it panic. *)
Theorem Open_panics_iff (g : gobCodec) (ValidPath : string -> bool) (innerFS : FS)
        (noStat : bool) (now d : Z) (name : string) :
  min_int64 <= d <= max_int64 ->
  (Open g ValidPath now (mkCacheFS d (getter g innerFS noStat)) name = Panics <->
   ValidPath name = true /\
   exists inner info,
     innerFS name = Ok inner /\ File_Stat inner = Ok info /\
     info_IsDir info = true /\ File_ReadDir inner = None).
Proof.
  intros Hd. destruct (ValidPath name) eqn:Hv.
  - rewrite (Open_on_miss g ValidPath innerFS noStat now d name Hv Hd).
    assert (Hdec : forall buf,
               match decodeRecord g name buf with
               | Panics => Panics
               | Returns (Err err) => Returns (Err err)
               | Returns (Ok (f, _)) => Returns (Ok f)
               end <> Panics).
    { intros buf. destruct (decodeRecord_cases g name buf) as [(c & ->)|(f & off & -> & _)];
        discriminate. }
    unfold load. split.
    + intros H. split; [reflexivity|].
      destruct (innerFS name) as [inner|e] eqn:H1; [|discriminate].
      destruct (File_Stat inner) as [info|e] eqn:H2; [|discriminate].
      exists inner, info.
      destruct (info_IsDir info) eqn:H3.
      * destruct (File_ReadDir inner) as [[entries [e|]]|] eqn:H4;
          [discriminate| |repeat split; assumption].
        destruct (encodeRecord g _ _) as [buf|e]; [|discriminate].
        now apply Hdec in H.
      * destruct (File_ReadAll inner) as (data, [e|]); [discriminate|].
        destruct (encodeRecord g _ _) as [buf|e]; [|discriminate].
        now apply Hdec in H.
    + intros (_ & inner & info & -> & -> & -> & ->). reflexivity.
  - unfold Open. rewrite Hv. cbn [negb]. split; [discriminate|].
    intros [H _]. discriminate.
Qed.

Lemma Open_panics_iff_witness :
  exists r,
    Open tinyCodec alwaysValid 0 (mkCacheFS 0 (getter tinyCodec exampleFS false)) "." =
      Returns r.
Proof.
  destruct (Open tinyCodec alwaysValid 0 (mkCacheFS 0 (getter tinyCodec exampleFS false)) ".")
    as [r|] eqn:H.
  - exists r. reflexivity.
  - apply (Open_panics_iff tinyCodec alwaysValid exampleFS false 0 0 ".") in H.
    + destruct H as (_ & inner & info & H1 & _ & _ & H4).
      injection H1 as <-. discriminate H4.
    + unfold min_int64, max_int64. lia.
Defined.
